(** * Two-party secret sharing with Beaver triples: a shallow embedding

    The development follows the sources of the secret-sharing runtime:
    - [utils::Mod] (utils.hpp),
    - [comm::internal::SendData] / [RecvData] (comm_configure.hpp),
    - [comm::Server], [comm::Client] (server.cpp, client.cpp),
    - [Party], [AdditiveSecretSharing], [BooleanSecretSharing] and
      [ShareHandler] (secret_sharing.cpp).

    Unsigned 32-bit cells are integers in [Z] with the wrap-around written
    out; the two parties are programs over a small communication monad that
    are run against each other over a pair of ordered word channels. *)

From Stdlib Require Import ZArith Lia List Bool Morphisms Setoid.
From Stdlib Require Import Decimal DecimalN DecimalString Ascii String.
From stdpp Require Import base option list gmap strings.

Local Open Scope Z_scope.

(** ** Machine integers *)

(** Conversion to [uint32_t] and to a 64-bit [unsigned long]. *)
Definition u32 (z : Z) : Z := z mod 2 ^ 32.
Definition u64 (z : Z) : Z := z mod 2 ^ 64.

(** [uint32_t] arithmetic: the mathematical result, reduced modulo 2^32. *)
Definition add32 (a b : Z) : Z := u32 (a + b).
Definition sub32 (a b : Z) : Z := u32 (a - b).
Definition mul32 (a b : Z) : Z := u32 (a * b).

Definition is_u32 (z : Z) : Prop := 0 <= z < 2 ^ 32.

(** [utils::Mod]:
      return value & ((1UL << bitsize) - 1UL);
    the mask is computed on [unsigned long] (64 bits), the result is
    converted back to [uint32_t]. *)
Definition Mod (value bitsize : Z) : Z :=
  u32 (Z.land value (u64 (u64 (Z.shiftl 1 bitsize) - 1))).

(** ** Outcomes of a call *)

Inductive fault : Type :=
| invalid_argument   (* std::invalid_argument thrown *)
| out_of_range       (* operator[] past the end of a vector *)
| exit_failure.      (* exit(EXIT_FAILURE) *)

Inductive result (A : Type) : Type :=
| Done (a : A)
| Blocked
| Faulted (f : fault).
Arguments Done {A} a.
Arguments Blocked {A}.
Arguments Faulted {A} f.

(** ** The communication monad

    A party program either returns, pushes 32-bit words on its outgoing
    stream, waits for a fixed number of words of the incoming stream, or
    stops with a fault.  There is no length prefix on the wire.

    This is the view of the engines: a word sent is a word delivered, once
    and in order.  How a word becomes bytes on a socket, and how the byte
    counter of an endpoint moves, is in the section on the byte transport
    below; the counters are not threaded through the party programs. *)

Inductive Proto (A : Type) : Type :=
| Ret (a : A)
| SendWords (ws : list Z) (k : Proto A)
| RecvWords (n : nat) (k : list Z -> Proto A)
| Fail (f : fault).
Arguments Ret {A} a.
Arguments SendWords {A} ws k.
Arguments RecvWords {A} n k.
Arguments Fail {A} f.

Fixpoint bind {A B : Type} (p : Proto A) (f : A -> Proto B) : Proto B :=
  match p with
  | Ret a => f a
  | SendWords ws k => SendWords ws (bind k f)
  | RecvWords n k => RecvWords n (fun ws => bind (k ws) f)
  | Fail e => Fail e
  end.

Global Instance Proto_bind : MBind Proto := fun A B f p => bind p f.
Global Instance Proto_ret : MRet Proto := fun A a => Ret a.

(** One party seen alone: [inc] is what the peer has put on the wire,
    [out] collects what this party sends. *)
Fixpoint run1 {A : Type} (p : Proto A) (inc out : list Z) : result (A * list Z) :=
  match p with
  | Ret a => Done (a, out)
  | SendWords ws k => run1 k inc (out ++ ws)
  | RecvWords n k =>
      if (n <=? length inc)%nat
      then run1 (k (firstn n inc)) (skipn n inc) out
      else Blocked
  | Fail e => Faulted e
  end.

(** Both parties together.  [c01] carries the words in flight from party 0
    to party 1 and [c10] those from party 1 to party 0. *)
Record config (A B : Type) : Type := Config {
  prog0 : Proto A;
  prog1 : Proto B;
  c01 : list Z;
  c10 : list Z
}.
Arguments Config {A B} _ _ _ _.
Arguments prog0 {A B} _.
Arguments prog1 {A B} _.
Arguments c01 {A B} _.
Arguments c10 {A B} _.

(** A party can move when it sends, or when it receives and enough words
    have arrived. *)
Definition step0 {A B : Type} (c : config A B) : option (config A B) :=
  match prog0 c with
  | SendWords ws k => Some (Config k (prog1 c) (c01 c ++ ws) (c10 c))
  | RecvWords n k =>
      if (n <=? length (c10 c))%nat
      then Some (Config (k (firstn n (c10 c))) (prog1 c) (c01 c) (skipn n (c10 c)))
      else None
  | _ => None
  end.

Definition step1 {A B : Type} (c : config A B) : option (config A B) :=
  match prog1 c with
  | SendWords ws k => Some (Config (prog0 c) k (c01 c) (c10 c ++ ws))
  | RecvWords n k =>
      if (n <=? length (c01 c))%nat
      then Some (Config (prog0 c) (k (firstn n (c01 c))) (skipn n (c01 c)) (c10 c))
      else None
  | _ => None
  end.

Fixpoint run2 {A B : Type} (fuel : nat) (c : config A B) : result (A * B) :=
  match prog0 c, prog1 c with
  | Ret a, Ret b => Done (a, b)
  | Fail e, _ => Faulted e
  | _, Fail e => Faulted e
  | _, _ =>
      match fuel with
      | O => Blocked
      | S fuel' =>
          match step0 c with
          | Some c' => run2 fuel' c'
          | None =>
              match step1 c with
              | Some c' => run2 fuel' c'
              | None => Blocked
              end
          end
      end
  end.

(** The two programs started on empty channels. *)
Definition session {A B : Type} (fuel : nat) (p0 : Proto A) (p1 : Proto B)
  : result (A * B) :=
  run2 fuel (Config p0 p1 [] []).

(** ** Party *)

(** [comm::Server]: port, listening socket, accepted socket, byte counter. *)
Record Server : Type := mkServer {
  s_port : Z;
  server_fd : Z;
  s_client_fd : Z;
  s_total_bytes_sent : Z
}.

(** [comm::Client]: host, port, socket, byte counter. *)
Record Client : Type := mkClient {
  host_address : string;
  c_port : Z;
  c_client_fd : Z;
  c_total_bytes_sent : Z
}.

Record Party : Type := mkParty {
  id_ : Z;
  p0_ : Server;
  p1_ : Client;
  is_started_ : bool
}.

Definition GetId (party : Party) : Z := id_ party.

(** [SendValue]/[RecvValue] at the level of words, and with them
    [SendArray]/[RecvArray] and [SendVector]/[RecvVector].

    Modelled from the spec: the array and vector variants are called by
    [Party::SendRecv] but server.cpp and client.cpp do not define them;
    by the wire protocol an exchange of n words is exactly 4n bytes with
    no length prefix, so a receive fills the slot it is given and waits
    for as many words as the slot holds. *)
Definition SendValue (v : Z) : Proto unit := SendWords [v] (Ret tt).
Definition RecvValue : Proto Z := RecvWords 1 (fun ws => Ret (nth 0 ws 0)).
Definition SendVector (v : list Z) : Proto unit := SendWords v (Ret tt).
Definition RecvVector (slot : list Z) : Proto (list Z) :=
  RecvWords (length slot) (fun ws => Ret ws).

(** [Party::SendRecv] (scalar): party 0 sends [x_0] and then receives into
    [x_1]; the other party receives into [x_0] and then sends [x_1].  The
    pair returned is the content of ([x_0], [x_1]) after the call. *)
Definition SendRecv (party : Party) (x_0 x_1 : Z) : Proto (Z * Z) :=
  if GetId party =? 0 then
    SendValue x_0;; v ← RecvValue; Ret (x_0, v)
  else
    v ← RecvValue; SendValue x_1;; Ret (v, x_1).

(** [Party::SendRecv] on vectors and on fixed-length arrays. *)
Definition SendRecv_vec (party : Party) (x_vec_0 x_vec_1 : list Z)
  : Proto (list Z * list Z) :=
  if GetId party =? 0 then
    SendVector x_vec_0;; v ← RecvVector x_vec_1; Ret (x_vec_0, v)
  else
    v ← RecvVector x_vec_0; SendVector x_vec_1;; Ret (v, x_vec_1).

(** ** Randomness *)

(** Modelled from the spec: rng::SecureRng (random_number_generator.hpp is
    not part of the sources) is an opaque source of 64-bit words and of
    single random bits.  The generator state is the tape of its future
    outcomes; a draw returns the head and advances the tape. *)
Record SecureRng : Type := mkRng {
  words : nat -> Z;
  coins : nat -> bool
}.

Definition Rand64 (g : SecureRng) : Z * SecureRng :=
  (u64 (words g 0%nat), mkRng (fun n => words g (S n)) (coins g)).

Definition RandBool (g : SecureRng) : bool * SecureRng :=
  (coins g 0%nat, mkRng (words g) (fun n => coins g (S n))).

(** Conversion of a C++ [bool] to [uint32_t]. *)
Definition of_bool (b : bool) : Z := if b then 1 else 0.

(** ** Beaver triples *)

Record BeaverTriplet : Type := mkBT { bt_a : Z; bt_b : Z; bt_c : Z }.

(** ** Arithmetic engine *)

Record AdditiveSecretSharing : Type := mkASS { bitsize_ : Z }.

(** The constructor rejects bit sizes 0 and 1. *)
Definition AdditiveSecretSharing_new (bitsize : Z) : result AdditiveSecretSharing :=
  if bitsize <=? 1 then Faulted invalid_argument else Done (mkASS bitsize).

Module Additive.

(** [AdditiveSecretSharing::Share(x)]. *)
Definition Share (ss : AdditiveSecretSharing) (x : Z) (g : SecureRng)
  : (Z * Z) * SecureRng :=
  let (r, g') := Rand64 g in
  let x_0 := Mod (u32 r) (bitsize_ ss) in
  let x_1 := Mod (sub32 x x_0) (bitsize_ ss) in
  ((x_0, x_1), g').

(** [AdditiveSecretSharing::Reconst(party, x_0, x_1)]. *)
Definition Reconst (ss : AdditiveSecretSharing) (party : Party) (x_0 x_1 : Z)
  : Proto Z :=
  xs ← SendRecv party x_0 x_1;
  Ret (Mod (add32 (fst xs) (snd xs)) (bitsize_ ss)).

(** The element-wise loop of the array and vector [Reconst]:
      for (i = 0; i < length; i++) output[i] = Mod(x_0[i] + x_1[i]);
    [n] iterations are left and [i] is the loop index.  Reading past the
    end of an operand is an [out_of_range] fault. *)
Fixpoint Reconst_loop (ss : AdditiveSecretSharing) (n i : nat)
    (x_0 x_1 output : list Z) : Proto (list Z) :=
  match n with
  | O => Ret output
  | S n' =>
      match x_0 !! i, x_1 !! i with
      | Some a, Some b =>
          Reconst_loop ss n' (S i) x_0 x_1
            (<[i := Mod (add32 a b) (bitsize_ ss)]> output)
      | _, _ => Fail out_of_range
      end
  end.

(** [Reconst] on vectors; the arrays of two and four cells are the
    vectors of that length. *)
Definition Reconst_vec (ss : AdditiveSecretSharing) (party : Party)
    (x_vec_0 x_vec_1 output : list Z) : Proto (list Z) :=
  let length := length output in
  xs ← SendRecv_vec party x_vec_0 x_vec_1;
  Reconst_loop ss length 0 (fst xs) (snd xs) output.

(** [AdditiveSecretSharing::Mult(party, bt, x, y)]. *)
Definition Mult (ss : AdditiveSecretSharing) (party : Party)
    (bt : BeaverTriplet) (x y : Z) : Proto Z :=
  let k := bitsize_ ss in
  let de_0 := if GetId party =? 0
              then [Mod (sub32 x (bt_a bt)) k; Mod (sub32 y (bt_b bt)) k]
              else [0; 0] in
  let de_1 := if GetId party =? 0
              then [0; 0]
              else [Mod (sub32 x (bt_a bt)) k; Mod (sub32 y (bt_b bt)) k] in
  de ← Reconst_vec ss party de_0 de_1 [0; 0];
  let d := nth 0 de 0 in
  let e := nth 1 de 0 in
  if GetId party =? 0 then
    Ret (Mod (add32 (add32 (add32 (mul32 e (bt_a bt)) (mul32 d (bt_b bt)))
                           (bt_c bt))
                    (mul32 d e)) k)
  else
    Ret (Mod (add32 (add32 (mul32 e (bt_a bt)) (mul32 d (bt_b bt)))
                    (bt_c bt)) k).

(** [AdditiveSecretSharing::Mult2]: two multiplications in one round of
    four masked differences. *)
Definition Mult2 (ss : AdditiveSecretSharing) (party : Party)
    (bt1 bt2 : BeaverTriplet) (x1 y1 x2 y2 : Z) : Proto (Z * Z) :=
  let k := bitsize_ ss in
  let own := [Mod (sub32 x1 (bt_a bt1)) k; Mod (sub32 y1 (bt_b bt1)) k;
              Mod (sub32 x2 (bt_a bt2)) k; Mod (sub32 y2 (bt_b bt2)) k] in
  let de_0 := if GetId party =? 0 then own else [0; 0; 0; 0] in
  let de_1 := if GetId party =? 0 then [0; 0; 0; 0] else own in
  de ← Reconst_vec ss party de_0 de_1 [0; 0; 0; 0];
  let d1 := nth 0 de 0 in
  let e1 := nth 1 de 0 in
  let d2 := nth 2 de 0 in
  let e2 := nth 3 de 0 in
  if GetId party =? 0 then
    Ret (Mod (add32 (add32 (add32 (mul32 e1 (bt_a bt1)) (mul32 d1 (bt_b bt1)))
                           (bt_c bt1))
                    (mul32 d1 e1)) k,
         Mod (add32 (add32 (add32 (mul32 e2 (bt_a bt2)) (mul32 d2 (bt_b bt2)))
                           (bt_c bt2))
                    (mul32 d2 e2)) k)
  else
    Ret (Mod (add32 (add32 (mul32 e1 (bt_a bt1)) (mul32 d1 (bt_b bt1)))
                    (bt_c bt1)) k,
         Mod (add32 (add32 (mul32 e2 (bt_a bt2)) (mul32 d2 (bt_b bt2)))
                    (bt_c bt2)) k).

(** First loop of the vector [Mult]:
      de_own[2 * i]     = Mod(x_vec[i] - bt_vec[i].a);
      de_own[2 * i + 1] = Mod(y_vec[i] - bt_vec[i].b);
    with [n] iterations left at index [i].  The operands are indexed with
    the unchecked [operator[]]: past their end the run is an
    [out_of_range] fault. *)
Fixpoint Mult_mask_loop (ss : AdditiveSecretSharing) (n i : nat)
    (bt_vec : list BeaverTriplet) (x_vec y_vec de_own : list Z)
  : Proto (list Z) :=
  match n with
  | O => Ret de_own
  | S n' =>
      match x_vec !! i, y_vec !! i, bt_vec !! i with
      | Some x, Some y, Some bt =>
          Mult_mask_loop ss n' (S i) bt_vec x_vec y_vec
            (<[(2 * i + 1)%nat := Mod (sub32 y (bt_b bt)) (bitsize_ ss)]>
               (<[(2 * i)%nat := Mod (sub32 x (bt_a bt)) (bitsize_ ss)]> de_own))
      | _, _, _ => Fail out_of_range
      end
  end.

(** The combination of one position, as in the scalar [Mult]. *)
Definition Mult_combine (ss : AdditiveSecretSharing) (party : Party)
    (bt : BeaverTriplet) (d e : Z) : Z :=
  let k := bitsize_ ss in
  if GetId party =? 0 then
    Mod (add32 (add32 (add32 (mul32 e (bt_a bt)) (mul32 d (bt_b bt)))
                      (bt_c bt))
               (mul32 d e)) k
  else
    Mod (add32 (add32 (mul32 e (bt_a bt)) (mul32 d (bt_b bt)))
               (bt_c bt)) k.

(** Second loop of the vector [Mult]: z_vec[i] from de_vec[2 * i],
    de_vec[2 * i + 1] and bt_vec[i]. *)
Fixpoint Mult_combine_loop (ss : AdditiveSecretSharing) (party : Party)
    (n i : nat) (bt_vec : list BeaverTriplet) (de_vec z_vec : list Z)
  : Proto (list Z) :=
  match n with
  | O => Ret z_vec
  | S n' =>
      match de_vec !! (2 * i)%nat, de_vec !! (2 * i + 1)%nat, bt_vec !! i with
      | Some d, Some e, Some bt =>
          Mult_combine_loop ss party n' (S i) bt_vec de_vec
            (<[i := Mult_combine ss party bt d e]> z_vec)
      | _, _, _ => Fail out_of_range
      end
  end.

(** [AdditiveSecretSharing::Mult] on vectors.  The number of
    multiplications is the size of [z_vec]; no length is compared. *)
Definition Mult_vec (ss : AdditiveSecretSharing) (party : Party)
    (bt_vec : list BeaverTriplet) (x_vec y_vec z_vec : list Z)
  : Proto (list Z) :=
  let num := length z_vec in
  let zeros := replicate (num * 2) 0 in
  own ← Mult_mask_loop ss num 0 bt_vec x_vec y_vec zeros;
  let de_vec_0 := if GetId party =? 0 then own else zeros in
  let de_vec_1 := if GetId party =? 0 then zeros else own in
  de_vec ← Reconst_vec ss party de_vec_0 de_vec_1 zeros;
  Mult_combine_loop ss party num 0 bt_vec de_vec z_vec.

(** [AdditiveSecretSharing::Share] on vectors, one draw per element. *)
Fixpoint Share_vec (ss : AdditiveSecretSharing) (x_vec : list Z)
    (g : SecureRng) : (list Z * list Z) * SecureRng :=
  match x_vec with
  | [] => (([], []), g)
  | x :: rest =>
      let '((x_0, x_1), g1) := Share ss x g in
      let '((r0, r1), g2) := Share_vec ss rest g1 in
      ((x_0 :: r0, x_1 :: r1), g2)
  end.

(** [AdditiveSecretSharing::GenerateBeaverTriples]: [bt_num] triples with
    a and b drawn and c = Mod(a * b). *)
Fixpoint GenerateBeaverTriples (ss : AdditiveSecretSharing) (bt_num : nat)
    (g : SecureRng) : list BeaverTriplet * SecureRng :=
  match bt_num with
  | O => ([], g)
  | S n =>
      let (ra, g1) := Rand64 g in
      let val_a := Mod (u32 ra) (bitsize_ ss) in
      let (rb, g2) := Rand64 g1 in
      let val_b := Mod (u32 rb) (bitsize_ ss) in
      let val_c := Mod (mul32 val_a val_b) (bitsize_ ss) in
      let (rest, g3) := GenerateBeaverTriples ss n g2 in
      (mkBT val_a val_b val_c :: rest, g3)
  end.

(** [AdditiveSecretSharing::ShareBeaverTriples]: for every triple, in the
    order a, b, c, the first share is a fresh draw and the second share is
    the component minus the first share. *)
Fixpoint ShareBeaverTriples (ss : AdditiveSecretSharing)
    (bt_vec : list BeaverTriplet) (g : SecureRng)
  : (list BeaverTriplet * list BeaverTriplet) * SecureRng :=
  match bt_vec with
  | [] => (([], []), g)
  | bt :: rest =>
      let (ra, g1) := Rand64 g in
      let a_0 := Mod (u32 ra) (bitsize_ ss) in
      let a_1 := Mod (sub32 (bt_a bt) a_0) (bitsize_ ss) in
      let (rb, g2) := Rand64 g1 in
      let b_0 := Mod (u32 rb) (bitsize_ ss) in
      let b_1 := Mod (sub32 (bt_b bt) b_0) (bitsize_ ss) in
      let (rc, g3) := Rand64 g2 in
      let c_0 := Mod (u32 rc) (bitsize_ ss) in
      let c_1 := Mod (sub32 (bt_c bt) c_0) (bitsize_ ss) in
      let '((r0, r1), g4) := ShareBeaverTriples ss rest g3 in
      ((mkBT a_0 b_0 c_0 :: r0, mkBT a_1 b_1 c_1 :: r1), g4)
  end.

End Additive.

(** ** Boolean engine *)

Module Boolean.

(** [BooleanSecretSharing::Share(x)]. *)
Definition Share (x : Z) (g : SecureRng) : (Z * Z) * SecureRng :=
  let (r, g') := RandBool g in
  let x_0 := of_bool r in
  let x_1 := Z.lxor x x_0 in
  ((x_0, x_1), g').

(** [BooleanSecretSharing::Reconst(party, x_0, x_1)]. *)
Definition Reconst (party : Party) (x_0 x_1 : Z) : Proto Z :=
  xs ← SendRecv party x_0 x_1;
  Ret (Z.lxor (fst xs) (snd xs)).

(** for (i = 0; i < length; i++) output[i] = x_0[i] ^ x_1[i]; *)
Fixpoint Reconst_loop (n i : nat) (x_0 x_1 output : list Z) : Proto (list Z) :=
  match n with
  | O => Ret output
  | S n' =>
      match x_0 !! i, x_1 !! i with
      | Some a, Some b =>
          Reconst_loop n' (S i) x_0 x_1 (<[i := Z.lxor a b]> output)
      | _, _ => Fail out_of_range
      end
  end.

Definition Reconst_vec (party : Party) (x_vec_0 x_vec_1 output : list Z)
  : Proto (list Z) :=
  let length := length output in
  xs ← SendRecv_vec party x_vec_0 x_vec_1;
  Reconst_loop length 0 (fst xs) (snd xs) output.

(** [BooleanSecretSharing::Share] on vectors. *)
Fixpoint Share_vec (x_vec : list Z) (g : SecureRng)
  : (list Z * list Z) * SecureRng :=
  match x_vec with
  | [] => (([], []), g)
  | x :: rest =>
      let '((x_0, x_1), g1) := Share x g in
      let '((r0, r1), g2) := Share_vec rest g1 in
      ((x_0 :: r0, x_1 :: r1), g2)
  end.

(** [BooleanSecretSharing::GenerateBeaverTriples]. *)
Fixpoint GenerateBeaverTriples (bt_num : nat) (g : SecureRng)
  : list BeaverTriplet * SecureRng :=
  match bt_num with
  | O => ([], g)
  | S n =>
      let (ra, g1) := RandBool g in
      let val_a := of_bool ra in
      let (rb, g2) := RandBool g1 in
      let val_b := of_bool rb in
      let val_c := Z.land val_a val_b in
      let (rest, g3) := GenerateBeaverTriples n g2 in
      (mkBT val_a val_b val_c :: rest, g3)
  end.

(** [BooleanSecretSharing::ShareBeaverTriples]. *)
Fixpoint ShareBeaverTriples (bt_vec : list BeaverTriplet) (g : SecureRng)
  : (list BeaverTriplet * list BeaverTriplet) * SecureRng :=
  match bt_vec with
  | [] => (([], []), g)
  | bt :: rest =>
      let (ra, g1) := RandBool g in
      let a_0 := of_bool ra in
      let a_1 := Z.lxor (bt_a bt) a_0 in
      let (rb, g2) := RandBool g1 in
      let b_0 := of_bool rb in
      let b_1 := Z.lxor (bt_b bt) b_0 in
      let (rc, g3) := RandBool g2 in
      let c_0 := of_bool rc in
      let c_1 := Z.lxor (bt_c bt) c_0 in
      let '((r0, r1), g4) := ShareBeaverTriples rest g3 in
      ((mkBT a_0 b_0 c_0 :: r0, mkBT a_1 b_1 c_1 :: r1), g4)
  end.

(** [BooleanSecretSharing::And(party, bt_b, x_b, y_b)]; the triple is
    called [bt] here, [bt_b] being the projection of its second field. *)
Definition And (party : Party) (bt : BeaverTriplet) (x_b y_b : Z) : Proto Z :=
  let de_0 := if GetId party =? 0
              then [Z.lxor x_b (bt_a bt); Z.lxor y_b (bt_b bt)]
              else [0; 0] in
  let de_1 := if GetId party =? 0
              then [0; 0]
              else [Z.lxor x_b (bt_a bt); Z.lxor y_b (bt_b bt)] in
  de ← Reconst_vec party de_0 de_1 [0; 0];
  let d := nth 0 de 0 in
  let e := nth 1 de 0 in
  if GetId party =? 0 then
    Ret (Z.lxor (Z.lxor (Z.lxor (Z.land e (bt_a bt)) (Z.land d (bt_b bt)))
                        (bt_c bt))
                (Z.land d e))
  else
    Ret (Z.lxor (Z.lxor (Z.land e (bt_a bt)) (Z.land d (bt_b bt)))
                (bt_c bt)).

(** [BooleanSecretSharing::Or(party, bt_b, x_b, y_b)]: party 0 flips its
    two input shares, runs [And] and flips the result; the other party
    runs [And] on its shares as they are. *)
Definition Or (party : Party) (bt : BeaverTriplet) (x_b y_b : Z) : Proto Z :=
  if GetId party =? 0 then
    let nx_b := Z.lxor x_b 1 in
    let ny_b := Z.lxor y_b 1 in
    zb_0 ← And party bt nx_b ny_b;
    Ret (Z.lxor zb_0 1)
  else
    zb_1 ← And party bt x_b y_b;
    Ret zb_1.

(** First loop of the vector [And]:
      de_own[2 * i]     = xb_vec[i] ^ btb_vec[i].a;
      de_own[2 * i + 1] = yb_vec[i] ^ btb_vec[i].b; *)
Fixpoint And_mask_loop (n i : nat) (btb_vec : list BeaverTriplet)
    (xb_vec yb_vec de_own : list Z) : Proto (list Z) :=
  match n with
  | O => Ret de_own
  | S n' =>
      match xb_vec !! i, yb_vec !! i, btb_vec !! i with
      | Some x, Some y, Some bt =>
          And_mask_loop n' (S i) btb_vec xb_vec yb_vec
            (<[(2 * i + 1)%nat := Z.lxor y (bt_b bt)]>
               (<[(2 * i)%nat := Z.lxor x (bt_a bt)]> de_own))
      | _, _, _ => Fail out_of_range
      end
  end.

(** The combination of one position, as in the scalar [And]. *)
Definition And_combine_bits (party : Party) (bt : BeaverTriplet) (d e : Z) : Z :=
  if GetId party =? 0 then
    Z.lxor (Z.lxor (Z.lxor (Z.land e (bt_a bt)) (Z.land d (bt_b bt)))
                   (bt_c bt))
           (Z.land d e)
  else
    Z.lxor (Z.lxor (Z.land e (bt_a bt)) (Z.land d (bt_b bt))) (bt_c bt).

(** Second loop of the vector [And]. *)
Fixpoint And_combine_loop (party : Party) (n i : nat)
    (btb_vec : list BeaverTriplet) (de_vec zb_vec : list Z) : Proto (list Z) :=
  match n with
  | O => Ret zb_vec
  | S n' =>
      match de_vec !! (2 * i)%nat, de_vec !! (2 * i + 1)%nat, btb_vec !! i with
      | Some d, Some e, Some bt =>
          And_combine_loop party n' (S i) btb_vec de_vec
            (<[i := And_combine_bits party bt d e]> zb_vec)
      | _, _, _ => Fail out_of_range
      end
  end.

(** [BooleanSecretSharing::And] on vectors: as many conjunctions as
    [zb_vec] has cells, in one round. *)
Definition And_vec (party : Party) (btb_vec : list BeaverTriplet)
    (xb_vec yb_vec zb_vec : list Z) : Proto (list Z) :=
  let num := length zb_vec in
  let zeros := replicate (num * 2) 0 in
  own ← And_mask_loop num 0 btb_vec xb_vec yb_vec zeros;
  let de_vec_0 := if GetId party =? 0 then own else zeros in
  let de_vec_1 := if GetId party =? 0 then zeros else own in
  de_vec ← Reconst_vec party de_vec_0 de_vec_1 zeros;
  And_combine_loop party num 0 btb_vec de_vec zb_vec.

(** The two element-wise loops of the vector [Or] at party 0:
      nxb_vec[i] = xb_vec[i] ^ 1;  nyb_vec[i] = yb_vec[i] ^ 1;
    and, after the [And],
      zb_vec[i] = zb_vec[i] ^ 1; *)
Fixpoint Or_flip_inputs (n i : nat) (xb_vec yb_vec nxb_vec nyb_vec : list Z)
  : Proto (list Z * list Z) :=
  match n with
  | O => Ret (nxb_vec, nyb_vec)
  | S n' =>
      match xb_vec !! i, yb_vec !! i with
      | Some x, Some y =>
          Or_flip_inputs n' (S i) xb_vec yb_vec
            (<[i := Z.lxor x 1]> nxb_vec) (<[i := Z.lxor y 1]> nyb_vec)
      | _, _ => Fail out_of_range
      end
  end.

Fixpoint Or_flip_output (n i : nat) (zb_vec : list Z) : Proto (list Z) :=
  match n with
  | O => Ret zb_vec
  | S n' =>
      match zb_vec !! i with
      | Some z => Or_flip_output n' (S i) (<[i := Z.lxor z 1]> zb_vec)
      | None => Fail out_of_range
      end
  end.

(** [BooleanSecretSharing::Or] on vectors. *)
Definition Or_vec (party : Party) (btb_vec : list BeaverTriplet)
    (xb_vec yb_vec zb_vec : list Z) : Proto (list Z) :=
  let num := length zb_vec in
  if GetId party =? 0 then
    nxy ← Or_flip_inputs num 0 xb_vec yb_vec (replicate num 0) (replicate num 0);
    zb ← And_vec party btb_vec (fst nxy) (snd nxy) zb_vec;
    Or_flip_output num 0 zb
  else
    And_vec party btb_vec xb_vec yb_vec zb_vec.

End Boolean.

(** ** Sockets and the party's life cycle *)

(** The system calls made by [comm::Server] and [comm::Client]. *)
Inductive syscall : Type :=
| sys_socket
| sys_setsockopt (fd : Z)
| sys_bind (fd port : Z)
| sys_listen (fd backlog : Z)
| sys_accept (fd : Z)
| sys_connect (fd : Z) (host : string) (port : Z)
| sys_close (fd : Z).

(** The operating system: the calls made so far, and the value the kernel
    returns to a call made after a given history. *)
Record World : Type := mkWorld {
  history : list syscall;
  kernel : list syscall -> syscall -> Z
}.

Definition call (s : syscall) (w : World) : Z * World :=
  (kernel w (history w) s, mkWorld (history w ++ [s]) (kernel w)).

(** [Server::Setup]: socket, SO_REUSEADDR, bind, listen with backlog 3;
    any negative return ends the process. *)
Definition Server_Setup (s : Server) (w : World) : result (Server * World) :=
  let (fd, w1) := call sys_socket w in
  let s1 := mkServer (s_port s) fd (s_client_fd s) (s_total_bytes_sent s) in
  if fd <? 0 then Faulted exit_failure else
  let (r1, w2) := call (sys_setsockopt fd) w1 in
  if r1 <? 0 then Faulted exit_failure else
  let (r2, w3) := call (sys_bind fd (s_port s)) w2 in
  if r2 <? 0 then Faulted exit_failure else
  let (r3, w4) := call (sys_listen fd 3) w3 in
  if r3 <? 0 then Faulted exit_failure else
  Done (s1, w4).

(** [Server::Start]: accept one client. *)
Definition Server_Start (s : Server) (w : World) : result (Server * World) :=
  let (fd, w1) := call (sys_accept (server_fd s)) w in
  if fd <? 0 then Faulted exit_failure else
  Done (mkServer (s_port s) (server_fd s) fd (s_total_bytes_sent s), w1).

(** [Server::CloseSocket]. *)
Definition Server_CloseSocket (s : Server) (w : World) : World :=
  snd (call (sys_close (s_client_fd s)) (snd (call (sys_close (server_fd s)) w))).

(** [Client::Setup] and [Client::Start]. *)
Definition Client_Setup (c : Client) (w : World) : result (Client * World) :=
  let (fd, w1) := call sys_socket w in
  if fd <? 0 then Faulted exit_failure else
  Done (mkClient (host_address c) (c_port c) fd (c_total_bytes_sent c), w1).

Definition Client_Start (c : Client) (w : World) : result (Client * World) :=
  let (status, w1) := call (sys_connect (c_client_fd c) (host_address c) (c_port c)) w in
  if status <? 0 then Faulted exit_failure else Done (c, w1).

Definition Client_CloseSocket (c : Client) (w : World) : World :=
  snd (call (sys_close (c_client_fd c)) w).

(** [Server::ClearTotalBytesSent] and [Client::ClearTotalBytesSent]. *)
Definition Server_ClearTotalBytesSent (s : Server) : Server :=
  mkServer (s_port s) (server_fd s) (s_client_fd s) 0.

Definition Client_ClearTotalBytesSent (c : Client) : Client :=
  mkClient (host_address c) (c_port c) (c_client_fd c) 0.

(** [Party::GetTotalBytesSent] and [Party::ClearTotalBytesSent] act on the
    endpoint selected by the party id. *)
Definition GetTotalBytesSent (party : Party) : Z :=
  if id_ party =? 0 then s_total_bytes_sent (p0_ party)
  else c_total_bytes_sent (p1_ party).

Definition ClearTotalBytesSent (party : Party) : Party :=
  if id_ party =? 0
  then mkParty (id_ party) (Server_ClearTotalBytesSent (p0_ party)) (p1_ party)
               (is_started_ party)
  else mkParty (id_ party) (p0_ party) (Client_ClearTotalBytesSent (p1_ party))
               (is_started_ party).

(** [Party::StartCommunication]: the counter is cleared first, then the
    latch is tested, then the endpoint of this party is set up and
    started, and the latch is set. *)
Definition StartCommunication (party : Party) (w : World) : result (Party * World) :=
  let party := ClearTotalBytesSent party in
  if is_started_ party then Done (party, w) else
  if id_ party =? 0 then
    match Server_Setup (p0_ party) w with
    | Done (s1, w1) =>
        match Server_Start s1 w1 with
        | Done (s2, w2) => Done (mkParty (id_ party) s2 (p1_ party) true, w2)
        | Blocked => Blocked
        | Faulted f => Faulted f
        end
    | Blocked => Blocked
    | Faulted f => Faulted f
    end
  else
    match Client_Setup (p1_ party) w with
    | Done (c1, w1) =>
        match Client_Start c1 w1 with
        | Done (c2, w2) => Done (mkParty (id_ party) (p0_ party) c2 true, w2)
        | Blocked => Blocked
        | Faulted f => Faulted f
        end
    | Blocked => Blocked
    | Faulted f => Faulted f
    end.

(** [Party::EndCommunication] closes both endpoints. *)
Definition EndCommunication (party : Party) (w : World) : World :=
  Client_CloseSocket (p1_ party) (Server_CloseSocket (p0_ party) w).

(** ** Byte transport *)

(** One [send(fd, buf, len, 0)] that returns [r > 0] has queued the first
    [r] bytes of [buf]; one [recv(fd, buf, len, 0)] that returns [r > 0]
    has moved the next [r] bytes of the stream to the start of [buf]. *)
Definition send_call (r : Z) (buf wire : list Byte.byte) : list Byte.byte :=
  wire ++ firstn (Z.to_nat r) buf.

Definition recv_call (r : Z) (stream buf : list Byte.byte)
  : list Byte.byte * list Byte.byte :=
  (firstn (Z.to_nat r) stream ++ skipn (Z.to_nat r) buf,
   skipn (Z.to_nat r) stream).

(** [comm::internal::SendData]: [rets] are the values returned by the
    successive calls to [send], [wire] is what the socket has taken so
    far.  Every call passes [data] and [data_size] unchanged.  The result
    is the boolean returned and the content of the wire. *)
Fixpoint SendData_loop (rets : list Z) (data : list Byte.byte)
    (total_sent_bytes : Z) (wire : list Byte.byte)
  : result (bool * list Byte.byte) :=
  if total_sent_bytes <? Z.of_nat (length data) then
    match rets with
    | [] => Blocked
    | sent_bytes :: rets' =>
        if sent_bytes <=? 0 then Done (false, wire)
        else SendData_loop rets' data (total_sent_bytes + sent_bytes)
               (send_call sent_bytes data wire)
    end
  else Done (true, wire).

Definition SendData (rets : list Z) (data wire : list Byte.byte)
  : result (bool * list Byte.byte) :=
  SendData_loop rets data 0 wire.

(** [comm::internal::RecvData]: [rets] are the values returned by the
    successive calls to [recv], [stream] the bytes not yet read.  Every
    call passes [buffer] and [buffer_size] unchanged.  The result is the
    boolean returned, the buffer and the rest of the stream. *)
Fixpoint RecvData_loop (rets : list Z) (stream buffer : list Byte.byte)
    (total_received_bytes : Z)
  : result (bool * list Byte.byte * list Byte.byte) :=
  if total_received_bytes <? Z.of_nat (length buffer) then
    match rets with
    | [] => Blocked
    | received_bytes :: rets' =>
        if received_bytes <=? 0 then Done (false, buffer, stream)
        else
          let (buffer', stream') := recv_call received_bytes stream buffer in
          RecvData_loop rets' stream' buffer'
            (total_received_bytes + received_bytes)
    end
  else Done (true, buffer, stream).

Definition RecvData (rets : list Z) (stream buffer : list Byte.byte)
  : result (bool * list Byte.byte * list Byte.byte) :=
  RecvData_loop rets stream buffer 0.

(** The calls a kernel can answer: a positive count is at most the length
    asked for (and, for [recv], at most what is in the stream). *)
Definition short_positive (len : nat) (r : Z) : Prop := 0 < r <= Z.of_nat len.

(** The four bytes of a [uint32_t] in memory (least significant first),
    as [reinterpret_cast<const char *>(&value)] exposes them. *)
Definition byte_of_Z (z : Z) : Byte.byte :=
  default Byte.x00 (Byte.of_N (Z.to_N (z mod 256))).

Definition bytes_of_u32 (value : Z) : list Byte.byte :=
  [byte_of_Z value; byte_of_Z (value / 2 ^ 8);
   byte_of_Z (value / 2 ^ 16); byte_of_Z (value / 2 ^ 24)].

Definition u32_of_bytes (bs : list Byte.byte) : Z :=
  fold_right (fun b acc => Z.of_N (Byte.to_N b) + 256 * acc) 0 bs.

(** [Server::SendValue]: the value goes through [SendData]; a failed send
    ends the process, a successful one adds [sizeof(value)] to the byte
    counter.  [Client::SendValue] is the same on the client's record. *)
Definition Server_SendValue (s : Server) (rets : list Z) (value : Z)
    (wire : list Byte.byte) : result (Server * list Byte.byte) :=
  match SendData rets (bytes_of_u32 value) wire with
  | Done (true, wire') =>
      Done (mkServer (s_port s) (server_fd s) (s_client_fd s)
              (add32 (s_total_bytes_sent s) 4), wire')
  | Done (false, _) => Faulted exit_failure
  | Blocked => Blocked
  | Faulted f => Faulted f
  end.

Definition Client_SendValue (c : Client) (rets : list Z) (value : Z)
    (wire : list Byte.byte) : result (Client * list Byte.byte) :=
  match SendData rets (bytes_of_u32 value) wire with
  | Done (true, wire') =>
      Done (mkClient (host_address c) (c_port c) (c_client_fd c)
              (add32 (c_total_bytes_sent c) 4), wire')
  | Done (false, _) => Faulted exit_failure
  | Blocked => Blocked
  | Faulted f => Faulted f
  end.

(** [Server::RecvValue] and [Client::RecvValue]: [RecvData] into the four
    bytes of [value]; the result is the new [value] and the rest of the
    stream. *)
Definition RecvValue_bytes (rets : list Z) (stream : list Byte.byte) (value : Z)
  : result (Z * list Byte.byte) :=
  match RecvData rets stream (bytes_of_u32 value) with
  | Done (true, buffer, stream') => Done (u32_of_bytes buffer, stream')
  | Done (false, _, _) => Faulted exit_failure
  | Blocked => Blocked
  | Faulted f => Faulted f
  end.

(** ** Share persistence *)

Definition newline : ascii := "010"%char.
Definition comma : ascii := ","%char.

(** [operator<<] on an unsigned integer: its decimal digits. *)
Definition to_string (n : Z) : string :=
  NilEmpty.string_of_uint (N.to_uint (Z.to_N n)).

(** Reading a decimal number: digits only, at least one. *)
Definition stoul (s : string) : option Z :=
  match s with
  | EmptyString => None
  | _ =>
      match NilEmpty.uint_of_string s with
      | Some d => Some (Z.of_N (N.of_uint d))
      | None => None
      end
  end.

(** The decimal digits, and the strings made of digits only. *)
Definition is_digit (ch : ascii) : bool :=
  match uint_of_char ch (Some Nil) with
  | Some _ => true
  | None => false
  end.

Fixpoint digits (s : string) : bool :=
  match s with
  | EmptyString => true
  | String ch s' => is_digit ch && digits s'
  end.

(** Splits a stream at the first [delim]: the text before it and the text
    after it (the delimiter is dropped; without a delimiter, everything is
    before). *)
Fixpoint cut (delim : ascii) (s : string) : string * string :=
  match s with
  | EmptyString => (EmptyString, EmptyString)
  | String ch s' =>
      if Ascii.eqb ch delim then (EmptyString, s')
      else let (l, r) := cut delim s' in (String ch l, r)
  end.

(** [std::getline(stream, line, delim)]: fails at the end of the stream,
    otherwise extracts up to the next delimiter. *)
Definition getline (delim : ascii) (stream : string) : option (string * string) :=
  match stream with
  | EmptyString => None
  | _ => Some (cut delim stream)
  end.

(** The files of the system, by path, and the paths that cannot be opened
    for writing. *)
Record FileSystem : Type := mkFS {
  files : gmap string string;
  locked : gset string
}.

(** Modelled from the spec: FileIo::OpenFile (file_io.cpp is not part of
    the sources; file_io.hpp documents it) opens the file at [file_path],
    for writing in truncation mode unless [append] is set, and returns
    whether the file was opened.  Here it returns the stream to write to
    (the previous content when appending, nothing otherwise). *)
Definition OpenFile_out (fs : FileSystem) (file_path : string) (append : bool)
  : option string :=
  if decide (file_path ∈ locked fs) then None
  else if append then Some (default EmptyString (files fs !! file_path))
  else Some EmptyString.

(** Modelled from the spec: FileIo::OpenFile for reading succeeds when the
    file exists, and gives its content as the stream to read. *)
Definition OpenFile_in (fs : FileSystem) (file_path : string) : option string :=
  files fs !! file_path.

(** Closing an output stream stores what was written. *)
Definition close_out (fs : FileSystem) (file_path : string) (stream : string)
  : FileSystem :=
  mkFS (<[file_path := stream]> (files fs)) (locked fs).

(** Modelled from the spec: FileIo::ReadNumCountFromFile (file_io.cpp is
    not part of the sources; documented in file_io.hpp) reads the first
    line of the stream and returns the element count written there as a
    [uint32_t]; it returns 0 when the line cannot be read or is not a
    32-bit decimal number.  The second component is the rest of the
    stream. *)
Definition ReadNumCountFromFile (stream : string) : Z * string :=
  match getline newline stream with
  | None => (0, stream)
  | Some (line, rest) =>
      match stoul line with
      | Some n => if n <? 2 ^ 32 then (n, rest) else (0, rest)
      | None => (0, rest)
      end
  end.

(** The fields of a line: the first field and the following ones.  A
    separator at the very end does not open a further field. *)
Fixpoint fields (delim : ascii) (s : string) : string * list string :=
  match s with
  | EmptyString => (EmptyString, [])
  | String ch s' =>
      let (f, fs) := fields delim s' in
      if Ascii.eqb ch delim
      then (EmptyString, match s' with EmptyString => [] | _ => f :: fs end)
      else (String ch f, fs)
  end.

Definition split (delim : ascii) (s : string) : list string :=
  match s with
  | EmptyString => []
  | _ => let (f, fs) := fields delim s in f :: fs
  end.

Fixpoint convert_fields (fs : list string) (data : list Z) : result (list Z) :=
  match fs with
  | [] => Done data
  | f :: fs' =>
      match stoul f with
      | Some n => convert_fields fs' (data ++ [u32 n])
      | None => Faulted invalid_argument
      end
  end.

(** Modelled from the spec: FileIo::SplitStringToUint32 (file_io.cpp is
    not part of the sources; documented in file_io.hpp) parses [str] with
    the ',' delimiter and stores the [uint32_t] values it extracts in
    [data].  A field that is not a decimal number is a parse error. *)
Definition SplitStringToUint32 (str : string) (data : list Z) : result (list Z) :=
  convert_fields (split comma str) data.

(** One line of a triple file: a,b,c and a line feed. *)
Definition triple_line (bt : BeaverTriplet) : string :=
  (to_string (bt_a bt) +:+ String comma (to_string (bt_b bt)
     +:+ String comma (to_string (bt_c bt) +:+ String newline EmptyString))).

Fixpoint write_triples (bt_vec : list BeaverTriplet) (stream : string) : string :=
  match bt_vec with
  | [] => stream
  | bt :: rest => write_triples rest (stream +:+ triple_line bt)
  end.

(** [ShareHandler::WriteBeaverTriplesToFile]: the element count on the
    first line, then one line per triple. *)
Definition WriteBeaverTriplesToFile (fs : FileSystem) (file_path : string)
    (bt_vec : list BeaverTriplet) : result FileSystem :=
  match OpenFile_out fs file_path false with
  | None => Faulted exit_failure
  | Some file =>
      let file := file +:+ to_string (Z.of_nat (length bt_vec))
                       +:+ String newline EmptyString in
      let file := write_triples bt_vec file in
      Done (close_out fs file_path file)
  end.

(** The loop of [ReadBeaverTriplesFromFile]: [n] iterations left; a line
    that cannot be read is skipped, a line with fewer than three values
    is read past the end of [vec]. *)
Fixpoint read_triples (n : nat) (stream : string) (bts : list BeaverTriplet)
  : result (list BeaverTriplet) :=
  match n with
  | O => Done bts
  | S n' =>
      match getline newline stream with
      | Some (line, rest) =>
          match SplitStringToUint32 line [] with
          | Done vec =>
              match vec !! 0%nat, vec !! 1%nat, vec !! 2%nat with
              | Some a, Some b, Some c =>
                  read_triples n' rest (bts ++ [mkBT a b c])
              | _, _, _ => Faulted out_of_range
              end
          | Blocked => Blocked
          | Faulted f => Faulted f
          end
      | None => read_triples n' stream bts
      end
  end.

(** [ShareHandler::ReadBeaverTriplesFromFile]: the result is the content
    of [bt_vec] after the call; when the file cannot be opened [bt_vec]
    is left as it was. *)
Definition ReadBeaverTriplesFromFile (fs : FileSystem) (file_path : string)
    (bt_vec : list BeaverTriplet) : result (list BeaverTriplet) :=
  match OpenFile_in fs file_path with
  | Some file =>
      let (size, file) := ReadNumCountFromFile file in
      read_triples (Z.to_nat size) file []
  | None => Done bt_vec
  end.

(** ** Notions used in the statements *)

(** Congruence modulo [2 ^ k]. *)
Definition eqm (k : Z) (a b : Z) : Prop := a mod 2 ^ k = b mod 2 ^ k.

(** The bit sizes on which a 32-bit cell holds the whole residue. *)
Class Small (k : Z) : Prop := small : 0 <= k <= 32.

(** The remainder with the modulus first, so that [red k] is a morphism. *)
Definition red (k a : Z) : Z := a mod 2 ^ k.

(** The text of a triple file after its first line. *)
Fixpoint triple_lines (bt_vec : list BeaverTriplet) : string :=
  match bt_vec with
  | [] => EmptyString
  | bt :: rest => triple_line bt +:+ triple_lines rest
  end.

(** A cell that holds a single bit. *)
Definition is_bit (z : Z) : Prop := z = 0 \/ z = 1.

(** A triple whose components are 32-bit cells. *)
Definition is_u32_triple (bt : BeaverTriplet) : Prop :=
  is_u32 (bt_a bt) /\ is_u32 (bt_b bt) /\ is_u32 (bt_c bt).

(** What it means for two triple shares to combine to a clear triple, in
    the arithmetic engine (sums modulo [2 ^ k]) and in the boolean engine
    (exclusive or). *)
Definition add_combines (k : Z) (bt t0 t1 : BeaverTriplet) : Prop :=
  eqm k (bt_a t0 + bt_a t1) (bt_a bt) /\
  eqm k (bt_b t0 + bt_b t1) (bt_b bt) /\
  eqm k (bt_c t0 + bt_c t1) (bt_c bt).

Definition xor_combines (bt t0 t1 : BeaverTriplet) : Prop :=
  Z.lxor (bt_a t0) (bt_a t1) = bt_a bt /\
  Z.lxor (bt_b t0) (bt_b t1) = bt_b bt /\
  Z.lxor (bt_c t0) (bt_c t1) = bt_c bt.

(** ** Further utilities of utils.hpp *)

(** [1U << n] on a 32-bit [unsigned]: defined for a shift count below the
    width only. *)
Definition shl32 (a n : Z) : option Z :=
  if (0 <=? n) && (n <? 32) then Some (u32 (Z.shiftl a n)) else None.

(** Conversion of a [uint32_t] to [int32_t] (two's complement). *)
Definition int32 (z : Z) : Z := (z + 2 ^ 31) mod 2 ^ 32 - 2 ^ 31.

(** [utils::To2Complement]:
      if (x & (1U << (bitsize - 1))) x = x - (1U << bitsize);
      return static_cast<int32_t>(x);
    [None] stands for a shift by 32 or more. *)
Definition To2Complement (x bitsize : Z) : option Z :=
  match shl32 1 (sub32 bitsize 1) with
  | None => None
  | Some sign =>
      if Z.land x sign =? 0 then Some (int32 x)
      else
        match shl32 1 bitsize with
        | None => None
        | Some top => Some (int32 (sub32 x top))
        end
  end.

(** ** Export and load of triple shares *)

(** [ShareHandler::ExportBT]. *)
Definition ExportBT (fs : FileSystem) (file_path : string)
    (bt_vec : list BeaverTriplet) : result FileSystem :=
  WriteBeaverTriplesToFile fs file_path bt_vec.

(** [ShareHandler::ExportBTShare]: the first share vector to
    [file_path_p0], then the second to [file_path_p1]. *)
Definition ExportBTShare (fs : FileSystem) (file_path_p0 file_path_p1 : string)
    (bt_vec_sh : list BeaverTriplet * list BeaverTriplet) : result FileSystem :=
  match WriteBeaverTriplesToFile fs file_path_p0 (fst bt_vec_sh) with
  | Done fs1 => WriteBeaverTriplesToFile fs1 file_path_p1 (snd bt_vec_sh)
  | Blocked => Blocked
  | Faulted f => Faulted f
  end.

(** [ShareHandler::LoadBTShare]. *)
Definition LoadBTShare (fs : FileSystem) (file_path : string)
    (bt_vec_sh : list BeaverTriplet) : result (list BeaverTriplet) :=
  ReadBeaverTriplesFromFile fs file_path bt_vec_sh.

(** ** Further notions used in the statements *)

(** The generator after [n] draws of words. *)
Definition skip_words (n : nat) (g : SecureRng) : SecureRng :=
  mkRng (fun i => words g (n + i)%nat) (coins g).

(** The generator after [n] draws of bits. *)
Definition skip_coins (n : nat) (g : SecureRng) : SecureRng :=
  mkRng (words g) (fun i => coins g (n + i)%nat).

(** An arithmetic triple is valid when c = a * b modulo [2 ^ k]; a boolean
    one when c = a AND b. *)
Definition valid_triple (k : Z) (bt : BeaverTriplet) : Prop :=
  eqm k (bt_c bt) (bt_a bt * bt_b bt).

Definition valid_bool_triple (bt : BeaverTriplet) : Prop :=
  bt_c bt = Z.land (bt_a bt) (bt_b bt).

(** A triple whose components are reduced to the low [k] bits. *)
Definition canonical_triple (k : Z) (bt : BeaverTriplet) : Prop :=
  0 <= bt_a bt < 2 ^ k /\ 0 <= bt_b bt < 2 ^ k /\ 0 <= bt_c bt < 2 ^ k.

(** * Properties *)

(** ** Arithmetic modulo a power of two *)

Lemma u32_range z : is_u32 (u32 z).
Proof. unfold is_u32, u32. apply Z.mod_pos_bound. lia. Qed.

Lemma u32_small z : is_u32 z -> u32 z = z.
Proof. unfold is_u32, u32. intros H. apply Z.mod_small. lia. Qed.

Lemma pow2_le_32 k : 0 <= k <= 32 -> 0 < 2 ^ k <= 2 ^ 32.
Proof.
  intros H. split.
  - apply Z.pow_pos_nonneg; lia.
  - apply Z.pow_le_mono_r; lia.
Qed.

(** On bit sizes up to 32, [Mod] is the remainder modulo [2 ^ bitsize]. *)
Lemma Mod_spec value k : 0 <= k <= 32 -> Mod value k = value mod 2 ^ k.
Proof.
  intros Hk. unfold Mod, u64, u32.
  pose proof (pow2_le_32 k Hk) as Hp.
  rewrite Z.shiftl_1_l.
  rewrite (Z.mod_small (2 ^ k)) by lia.
  rewrite (Z.mod_small (2 ^ k - 1)) by lia.
  replace (2 ^ k - 1) with (Z.ones k)
    by (rewrite Z.ones_equiv; lia).
  rewrite Z.land_ones by lia.
  apply Z.mod_small.
  pose proof (Z.mod_pos_bound value (2 ^ k)). lia.
Qed.

Lemma Mod_range value k : 0 <= k <= 32 -> 0 <= Mod value k < 2 ^ k.
Proof.
  intros Hk. rewrite Mod_spec by assumption.
  apply Z.mod_pos_bound. apply pow2_le_32; assumption.
Qed.


Global Instance eqm_equiv k : Equivalence (eqm k).
Proof.
  unfold eqm. split.
  - intros x. reflexivity.
  - intros x y H. symmetry. exact H.
  - intros x y z H1 H2. rewrite H1. exact H2.
Qed.

Global Instance add_eqm k : Proper (eqm k ==> eqm k ==> eqm k) Z.add.
Proof.
  unfold eqm. intros a a' Ha b b' Hb.
  rewrite (Zplus_mod a b), (Zplus_mod a' b'), Ha, Hb. reflexivity.
Qed.

Global Instance sub_eqm k : Proper (eqm k ==> eqm k ==> eqm k) Z.sub.
Proof.
  unfold eqm. intros a a' Ha b b' Hb.
  rewrite (Zminus_mod a b), (Zminus_mod a' b'), Ha, Hb. reflexivity.
Qed.

Global Instance mul_eqm k : Proper (eqm k ==> eqm k ==> eqm k) Z.mul.
Proof.
  unfold eqm. intros a a' Ha b b' Hb.
  rewrite (Zmult_mod a b), (Zmult_mod a' b'), Ha, Hb. reflexivity.
Qed.



Lemma Mod_red k a : Small k -> Mod a k = red k a.
Proof. intros Hk. apply Mod_spec. exact Hk. Qed.

Lemma red_eqm k a : eqm k (red k a) a.
Proof. unfold eqm, red. apply Zmod_mod. Qed.

Global Instance red_proper k : Proper (eqm k ==> eqm k) (red k).
Proof. intros a b H. rewrite !red_eqm. exact H. Qed.

Lemma u32_eqm k a : Small k -> eqm k (u32 a) a.
Proof.
  intros Hk. unfold eqm, u32.
  pose proof (pow2_le_32 k Hk).
  apply Z.mod_mod_divide.
  exists (2 ^ (32 - k)). rewrite <- Z.pow_add_r by (unfold Small in Hk; lia).
  f_equal. lia.
Qed.

Global Instance u32_proper k `{Small k} : Proper (eqm k ==> eqm k) u32.
Proof. intros a b Hab. rewrite !u32_eqm by assumption. exact Hab. Qed.

Lemma add32_eqm k a b : Small k -> eqm k (add32 a b) (a + b).
Proof. intros. unfold add32. apply u32_eqm; assumption. Qed.

Lemma sub32_eqm k a b : Small k -> eqm k (sub32 a b) (a - b).
Proof. intros. unfold sub32. apply u32_eqm; assumption. Qed.

Lemma mul32_eqm k a b : Small k -> eqm k (mul32 a b) (a * b).
Proof. intros. unfold mul32. apply u32_eqm; assumption. Qed.

Global Instance add32_proper k `{Small k} :
  Proper (eqm k ==> eqm k ==> eqm k) add32.
Proof. intros a a' Ha b b' Hb. rewrite !add32_eqm by assumption. now rewrite Ha, Hb. Qed.

Global Instance sub32_proper k `{Small k} :
  Proper (eqm k ==> eqm k ==> eqm k) sub32.
Proof. intros a a' Ha b b' Hb. rewrite !sub32_eqm by assumption. now rewrite Ha, Hb. Qed.

Global Instance mul32_proper k `{Small k} :
  Proper (eqm k ==> eqm k ==> eqm k) mul32.
Proof. intros a a' Ha b b' Hb. rewrite !mul32_eqm by assumption. now rewrite Ha, Hb. Qed.

(** Strips the machine operations from a congruence goal modulo [2 ^ k],
    given [Hk : Small k] in the context. *)
Ltac machine_eqm :=
  rewrite ?Mod_red by assumption;
  repeat first
    [ rewrite red_eqm
    | rewrite add32_eqm by assumption
    | rewrite sub32_eqm by assumption
    | rewrite mul32_eqm by assumption
    | rewrite u32_eqm by assumption ].

Lemma eqm_of_eq k a b : a = b -> eqm k a b.
Proof. intros ->. reflexivity. Qed.

Lemma eqm_small k a b :
  0 <= a < 2 ^ k -> 0 <= b < 2 ^ k -> eqm k a b -> a = b.
Proof.
  unfold eqm. intros Ha Hb H.
  rewrite (Z.mod_small a), (Z.mod_small b) in H; assumption.
Qed.

Arguments Mod : simpl never.
Arguments u32 : simpl never.
Arguments u64 : simpl never.
Arguments add32 : simpl never.
Arguments sub32 : simpl never.
Arguments mul32 : simpl never.

(** ** The arithmetic engine *)

Lemma Share_fst ss x g :
  fst (Additive.Share ss x g) =
    (Mod (u32 (fst (Rand64 g))) (bitsize_ ss),
     Mod (sub32 x (Mod (u32 (fst (Rand64 g))) (bitsize_ ss))) (bitsize_ ss)).
Proof. unfold Additive.Share. destruct (Rand64 g). reflexivity. Qed.

Lemma Share_sum ss x g s0 s1 :
  Small (bitsize_ ss) ->
  fst (Additive.Share ss x g) = (s0, s1) ->
  eqm (bitsize_ ss) (s0 + s1) x.
Proof.
  intros Hk. rewrite Share_fst. intros [= <- <-].
  machine_eqm. apply eqm_of_eq. ring.
Qed.

(** The scalar exchange, run by both parties: four moves, after which
    party 0 holds its own word and the peer's, and so does party 1. *)
Lemma session_Reconst ss party0 party1 s0 j0 j1 s1 fuel :
  GetId party0 = 0 -> GetId party1 = 1 -> (4 <= fuel)%nat ->
  session fuel (Additive.Reconst ss party0 s0 j0)
               (Additive.Reconst ss party1 j1 s1)
  = Done (Mod (add32 s0 s1) (bitsize_ ss), Mod (add32 s0 s1) (bitsize_ ss)).
Proof.
  intros H0 H1 Hf.
  do 4 (destruct fuel as [|fuel]; [lia|]).
  unfold session, Additive.Reconst, SendRecv. rewrite H0, H1.
  destruct fuel; cbv -[Mod add32]; reflexivity.
Qed.

(** C10. [AdditiveSecretSharing::Share] takes any 32-bit input: for a bit
    size between 2 and 32, every [uint32_t] x and every outcome of the
    generator, both shares are canonical (in [0, 2^k), equal to their own
    low k bits) and their sum is x modulo 2^k. *)
Theorem Share_any_input_canonical ss x g s0 s1 :
  2 <= bitsize_ ss <= 32 ->
  is_u32 x ->
  fst (Additive.Share ss x g) = (s0, s1) ->
  (0 <= s0 < 2 ^ bitsize_ ss) /\ (0 <= s1 < 2 ^ bitsize_ ss) /\
  Mod s0 (bitsize_ ss) = s0 /\ Mod s1 (bitsize_ ss) = s1 /\
  (s0 + s1) mod 2 ^ bitsize_ ss = x mod 2 ^ bitsize_ ss.
Proof.
  intros Hk Hx Hsh.
  assert (Hs : Small (bitsize_ ss)) by (unfold Small; lia).
  pose proof (Share_sum ss x g s0 s1 Hs Hsh) as Hsum.
  rewrite Share_fst in Hsh. injection Hsh as <- <-.
  set (r := Mod (u32 (fst (Rand64 g))) (bitsize_ ss)) in *.
  set (t := Mod (sub32 x r) (bitsize_ ss)) in *.
  assert (Hr : 0 <= r < 2 ^ bitsize_ ss) by (apply Mod_range; exact Hs).
  assert (Ht : 0 <= t < 2 ^ bitsize_ ss) by (apply Mod_range; exact Hs).
  split; [exact Hr|]. split; [exact Ht|].
  split; [|split].
  - rewrite Mod_spec by exact Hs. apply Z.mod_small. exact Hr.
  - rewrite Mod_spec by exact Hs. apply Z.mod_small. exact Ht.
  - exact Hsum.
Qed.

Lemma Share_any_input_canonical_witness :
  let ss := mkASS 8 in
  let g := mkRng (fun _ => 1000) (fun _ => false) in
  (0 <= 232 < 2 ^ 8) /\ (0 <= 68 < 2 ^ 8) /\
  Mod 232 8 = 232 /\ Mod 68 8 = 68 /\
  (232 + 68) mod 2 ^ 8 = 300 mod 2 ^ 8.
Proof.
  intros ss g.
  apply (Share_any_input_canonical ss 300 g 232 68).
  - simpl. lia.
  - unfold is_u32. lia.
  - reflexivity.
Defined.



(** Evaluates a session of two programs whose party ids are known. *)
Ltac run_session H0 H1 fuel :=
  do 4 (destruct fuel as [|fuel]; [lia|]);
  unfold session; rewrite ?H0, ?H1;
  destruct fuel;
  cbv -[Mod add32 sub32 mul32 Z.add Z.sub Z.mul Z.land Z.lxor Z.lor
       Z.modulo Z.pow bitsize_].

(** C1. Beaver multiplication is correct: for a bit size between 2 and 32,
    u and v in [0, 2^k), a clear triple with c = a*b modulo 2^k and any
    additive splitting of u, v, a, b, c between the parties, [Mult] run at
    party 0 (which adds d*e) and at party 1 (which does not) returns z0
    and z1 with (z0 + z1) mod 2^k = (u*v) mod 2^k. *)
Theorem Mult_correct ss u v a b c x0 x1 y0 y1 a0 a1 b0 b1 c0 c1
    party0 party1 fuel :
  2 <= bitsize_ ss <= 32 ->
  0 <= u < 2 ^ bitsize_ ss -> 0 <= v < 2 ^ bitsize_ ss ->
  eqm (bitsize_ ss) c (a * b) ->
  eqm (bitsize_ ss) (x0 + x1) u -> eqm (bitsize_ ss) (y0 + y1) v ->
  eqm (bitsize_ ss) (a0 + a1) a -> eqm (bitsize_ ss) (b0 + b1) b ->
  eqm (bitsize_ ss) (c0 + c1) c ->
  GetId party0 = 0 -> GetId party1 = 1 -> (4 <= fuel)%nat ->
  exists z0 z1,
    session fuel (Additive.Mult ss party0 (mkBT a0 b0 c0) x0 y0)
                 (Additive.Mult ss party1 (mkBT a1 b1 c1) x1 y1)
    = Done (z0, z1) /\
    (z0 + z1) mod 2 ^ bitsize_ ss = (u * v) mod 2 ^ bitsize_ ss.
Proof.
  intros Hk Hu Hv Hab Hx Hy Ha Hb Hc H0 H1 Hf.
  assert (Hs : Small (bitsize_ ss)) by (unfold Small; lia).
  unfold Additive.Mult, Additive.Reconst_vec, SendRecv_vec.
  run_session H0 H1 fuel.
  all: eexists; eexists; (split; [reflexivity|]).
  all: match goal with |- ?l mod _ = ?r mod _ => change (eqm (bitsize_ ss) l r) end.
  all: machine_eqm.
  all: transitivity ((x0 + x1) * (y0 + y1) + ((c0 + c1) - (a0 + a1) * (b0 + b1)));
    [apply eqm_of_eq; ring|].
  all: rewrite Hx, Hy, Hc, Ha, Hb, Hab; apply eqm_of_eq; ring.
Qed.

Lemma Mult_correct_witness :
  let ss := mkASS 32 in
  let party0 := mkParty 0 (mkServer 12345 3 4 0) (mkClient "127.0.0.1" 12345 0 0) true in
  let party1 := mkParty 1 (mkServer 12345 0 0 0) (mkClient "127.0.0.1" 12345 3 0) true in
  exists z0 z1,
    session 4 (Additive.Mult ss party0 (mkBT 1 2 10) 2 1)
              (Additive.Mult ss party1 (mkBT 2 3 5) 5 5)
    = Done (z0, z1) /\
    (z0 + z1) mod 2 ^ bitsize_ ss = (7 * 6) mod 2 ^ bitsize_ ss.
Proof.
  intros ss party0 party1.
  apply (Mult_correct ss 7 6 3 5 15 2 5 1 5 1 2 2 3 10 5 party0 party1 4);
    try reflexivity; simpl; lia.
Defined.

(** Scenario S2 evaluated: the output shares are 23 and 19. *)
Example Mult_S2 :
  session 4
    (Additive.Mult (mkASS 32) (mkParty 0 (mkServer 0 0 0 0) (mkClient "" 0 0 0) true)
       (mkBT 1 2 10) 2 1)
    (Additive.Mult (mkASS 32) (mkParty 1 (mkServer 0 0 0 0) (mkClient "" 0 0 0) true)
       (mkBT 2 3 5) 5 5)
  = Done (23, 19).
Proof. vm_compute. reflexivity. Qed.

(** ** Sharing of Beaver triples *)

Lemma lxor_share a r : Z.lxor r (Z.lxor a r) = a.
Proof.
  rewrite (Z.lxor_comm a r), <- Z.lxor_assoc, Z.lxor_nilpotent.
  apply Z.lxor_0_l.
Qed.

Lemma Additive_ShareBeaverTriples_combine ss bt_vec g :
  Small (bitsize_ ss) ->
  Forall3 (add_combines (bitsize_ ss)) bt_vec
    (fst (fst (Additive.ShareBeaverTriples ss bt_vec g)))
    (snd (fst (Additive.ShareBeaverTriples ss bt_vec g))).
Proof.
  intros Hs. revert g.
  induction bt_vec as [|bt rest IH]; intros g; simpl.
  - constructor.
  - specialize (IH (Rand64 (Rand64 (Rand64 g).2).2).2).
    destruct (Additive.ShareBeaverTriples ss rest _) as [[r0 r1] g4].
    simpl in *. constructor; [|exact IH].
    unfold add_combines; simpl.
    split; [|split]; machine_eqm; apply eqm_of_eq; ring.
Qed.

Lemma Boolean_ShareBeaverTriples_combine bt_vec g :
  Forall3 xor_combines bt_vec
    (fst (fst (Boolean.ShareBeaverTriples bt_vec g)))
    (snd (fst (Boolean.ShareBeaverTriples bt_vec g))).
Proof.
  revert g.
  induction bt_vec as [|bt rest IH]; intros g; simpl.
  - constructor.
  - specialize (IH (RandBool (RandBool (RandBool g).2).2).2).
    destruct (Boolean.ShareBeaverTriples rest _) as [[r0 r1] g4].
    simpl in *. constructor; [|exact IH].
    unfold xor_combines; simpl.
    split; [|split]; apply lxor_share.
Qed.

(** C2. [ShareBeaverTriples] returns two vectors of triple shares that
    combine, index by index, to the clear triples given: by sum modulo
    2^k in the arithmetic engine and by exclusive or in the boolean
    engine, the c component included; so the c shares of a valid triple
    combine to a*b (to a AND b), whatever the generator draws. *)
Theorem ShareBeaverTriples_combine ss bt_vec g :
  2 <= bitsize_ ss <= 32 ->
  let k := bitsize_ ss in
  let sh := fst (Additive.ShareBeaverTriples ss bt_vec g) in
  let shb := fst (Boolean.ShareBeaverTriples bt_vec g) in
  Forall3 (fun bt t0 t1 =>
             add_combines k bt t0 t1 /\
             (eqm k (bt_c bt) (bt_a bt * bt_b bt) ->
              eqm k (bt_c t0 + bt_c t1) (bt_a bt * bt_b bt)))
          bt_vec (fst sh) (snd sh) /\
  Forall3 (fun bt t0 t1 =>
             xor_combines bt t0 t1 /\
             (bt_c bt = Z.land (bt_a bt) (bt_b bt) ->
              Z.lxor (bt_c t0) (bt_c t1) = Z.land (bt_a bt) (bt_b bt)))
          bt_vec (fst shb) (snd shb).
Proof.
  intros Hk k sh shb.
  assert (Hs : Small k) by (unfold Small, k; lia).
  split.
  - eapply Forall3_impl.
    + apply Additive_ShareBeaverTriples_combine. exact Hs.
    + intros bt t0 t1 H. split; [exact H|].
      intros Hc. destruct H as (_ & _ & H). fold k in H. rewrite H. exact Hc.
  - eapply Forall3_impl.
    + apply Boolean_ShareBeaverTriples_combine.
    + intros bt t0 t1 H. split; [exact H|].
      intros Hc. destruct H as (_ & _ & H). rewrite H. exact Hc.
Qed.

Lemma ShareBeaverTriples_combine_witness :
  let ss := mkASS 8 in
  let g := mkRng (fun n => 1000 + Z.of_nat n) (fun n => Nat.even n) in
  let bt_vec := [mkBT 3 5 15; mkBT 1 1 1] in
  let k := bitsize_ ss in
  let sh := fst (Additive.ShareBeaverTriples ss bt_vec g) in
  let shb := fst (Boolean.ShareBeaverTriples bt_vec g) in
  Forall3 (fun bt t0 t1 =>
             add_combines k bt t0 t1 /\
             (eqm k (bt_c bt) (bt_a bt * bt_b bt) ->
              eqm k (bt_c t0 + bt_c t1) (bt_a bt * bt_b bt)))
          bt_vec (fst sh) (snd sh) /\
  Forall3 (fun bt t0 t1 =>
             xor_combines bt t0 t1 /\
             (bt_c bt = Z.land (bt_a bt) (bt_b bt) ->
              Z.lxor (bt_c t0) (bt_c t1) = Z.land (bt_a bt) (bt_b bt)))
          bt_vec (fst shb) (snd shb).
Proof.
  intros ss g bt_vec.
  apply (ShareBeaverTriples_combine ss bt_vec g).
  simpl. lia.
Defined.

(** The shares drawn for the triple (3, 5, 15) at k = 8 from the words
    1000, 1001, 1002: the c shares 234 and 37 sum to 15 modulo 256. *)
Example ShareBeaverTriples_sample :
  fst (Additive.ShareBeaverTriples (mkASS 8) [mkBT 3 5 15]
         (mkRng (fun n => 1000 + Z.of_nat n) (fun _ => false)))
  = ([mkBT 232 233 234], [mkBT 27 28 37]).
Proof. vm_compute. reflexivity. Qed.

(** ** The boolean engine *)

Lemma lxor_solve a b c : Z.lxor a b = c -> b = Z.lxor a c.
Proof.
  intros <-. rewrite <- Z.lxor_assoc, Z.lxor_nilpotent, Z.lxor_0_l. reflexivity.
Qed.

Lemma testbit_1 n : 0 <= n -> Z.testbit 1 n = (n =? 0).
Proof.
  intros Hn. change 1 with (2 ^ 0). rewrite Z.pow2_bits_eqb by lia.
  rewrite Z.eqb_sym. reflexivity.
Qed.

(** Bitwise reading of a goal between [Z.lxor]/[Z.land]/[Z.lor] terms over
    variables and the constants 0 and 1. *)
Ltac bitwise :=
  apply Z.bits_inj'; intros n Hn;
  repeat first
    [ rewrite Z.lxor_spec | rewrite Z.land_spec | rewrite Z.lor_spec
    | rewrite (testbit_1 n Hn) | rewrite Z.testbit_0_l ];
  destruct (n =? 0);
  repeat match goal with
         | |- context [Z.testbit ?z n] => destruct (Z.testbit z n)
         end;
  reflexivity.

(** The core of the AND round: with d and e opened, the two output shares
    combine to the conjunction of the operands. *)
Lemma And_combine x0 y0 a0 b0 c0 x y a b :
  let x1 := Z.lxor x0 x in
  let y1 := Z.lxor y0 y in
  let a1 := Z.lxor a0 a in
  let b1 := Z.lxor b0 b in
  let c1 := Z.lxor c0 (Z.land a b) in
  let d := Z.lxor (Z.lxor x0 a0) (Z.lxor x1 a1) in
  let e := Z.lxor (Z.lxor y0 b0) (Z.lxor y1 b1) in
  Z.lxor
    (Z.lxor (Z.lxor (Z.lxor (Z.land e a0) (Z.land d b0)) c0) (Z.land d e))
    (Z.lxor (Z.lxor (Z.land e a1) (Z.land d b1)) c1)
  = Z.land x y.
Proof. intros x1 y1 a1 b1 c1 d e. subst x1 y1 a1 b1 c1 d e. bitwise. Qed.

(** C5. Secure OR is correct with the flip on one side only: for clear
    bits x and y, a triple with c = a AND b and any splitting of x, y, a,
    b, c by exclusive or, [Or] at party 0 (which flips its input shares
    and its output share) and at party 1 (which runs a plain [And])
    returns shares z0, z1 with z0 XOR z1 = x OR y. *)
Theorem Or_correct x y a b c x0 x1 y0 y1 a0 a1 b0 b1 c0 c1 party0 party1 fuel :
  is_bit x -> is_bit y ->
  c = Z.land a b ->
  Z.lxor x0 x1 = x -> Z.lxor y0 y1 = y ->
  Z.lxor a0 a1 = a -> Z.lxor b0 b1 = b -> Z.lxor c0 c1 = c ->
  GetId party0 = 0 -> GetId party1 = 1 -> (4 <= fuel)%nat ->
  exists z0 z1,
    session fuel (Boolean.Or party0 (mkBT a0 b0 c0) x0 y0)
                 (Boolean.Or party1 (mkBT a1 b1 c1) x1 y1)
    = Done (z0, z1) /\
    Z.lxor z0 z1 = Z.lor x y.
Proof.
  intros Hbx Hby Hc Hx Hy Ha Hb Hcc H0 H1 Hf.
  apply lxor_solve in Hx, Hy, Ha, Hb, Hcc. subst x1 y1 a1 b1 c1 c.
  unfold Boolean.Or, Boolean.And, Boolean.Reconst_vec, SendRecv_vec.
  run_session H0 H1 fuel.
  all: eexists; eexists; (split; [reflexivity|]).
  all: destruct Hbx as [-> | ->]; destruct Hby as [-> | ->]; bitwise.
Qed.

Lemma Or_correct_witness :
  let party0 := mkParty 0 (mkServer 12345 3 4 0) (mkClient "127.0.0.1" 12345 0 0) true in
  let party1 := mkParty 1 (mkServer 12345 0 0 0) (mkClient "127.0.0.1" 12345 3 0) true in
  exists z0 z1,
    session 4 (Boolean.Or party0 (mkBT 0 1 1) 0 1)
              (Boolean.Or party1 (mkBT 1 0 0) 1 1)
    = Done (z0, z1) /\
    Z.lxor z0 z1 = Z.lor 1 0.
Proof.
  intros party0 party1.
  apply (Or_correct 1 0 1 1 1 0 1 1 1 0 1 1 0 1 0 party0 party1 4);
    try reflexivity; try lia; unfold is_bit; auto.
Defined.

(** Scenario S5: AND of x = 1 and y = 0 with the triple (1, 1, 1). *)
Example And_S5 :
  session 4
    (Boolean.And (mkParty 0 (mkServer 0 0 0 0) (mkClient "" 0 0 0) true)
       (mkBT 0 1 1) 0 1)
    (Boolean.And (mkParty 1 (mkServer 0 0 0 0) (mkClient "" 0 0 0) true)
       (mkBT 1 0 0) 1 1)
  = Done (1, 1).
Proof. vm_compute. reflexivity. Qed.

Lemma is_bit_of_bool b : is_bit (of_bool b).
Proof. destruct b; [right | left]; reflexivity. Qed.

Lemma is_bit_lxor a b : is_bit a -> is_bit b -> is_bit (Z.lxor a b).
Proof. intros [-> | ->] [-> | ->]; [left | right | right | left]; reflexivity. Qed.

Lemma is_bit_land a b : is_bit a -> is_bit b -> is_bit (Z.land a b).
Proof. intros [-> | ->] [-> | ->]; [left | left | left | right]; reflexivity. Qed.

Lemma is_bit_high_zero z : is_bit z -> forall n, 0 < n -> Z.testbit z n = false.
Proof.
  intros [-> | ->] n Hn.
  - apply Z.testbit_0_l.
  - rewrite testbit_1 by lia. apply Z.eqb_neq. lia.
Qed.

Create HintDb bits.
Local Hint Resolve is_bit_of_bool is_bit_lxor is_bit_land : bits.

Lemma is_bit_1 : is_bit 1.
Proof. right. reflexivity. Qed.

Local Hint Resolve is_bit_1 : bits.

(** C8. The boolean engine keeps every cell on its low bit: the two
    shares made by [Share] of a bit are bits, and on bits (operand shares,
    words received from the peer, triple components) [Reconst], [And] and
    [Or] return a bit, at either party. *)
Theorem low_bit_invariant x g party bt x_b y_b peer_d peer_e :
  is_bit x ->
  is_bit x_b -> is_bit y_b ->
  is_bit (bt_a bt) -> is_bit (bt_b bt) -> is_bit (bt_c bt) ->
  is_bit peer_d -> is_bit peer_e ->
  (is_bit (fst (fst (Boolean.Share x g))) /\
   is_bit (snd (fst (Boolean.Share x g)))) /\
  (exists z out,
     run1 (Boolean.Reconst party x_b y_b) [peer_d] [] = Done (z, out) /\
     is_bit z /\ forall n, 0 < n -> Z.testbit z n = false) /\
  (exists z out,
     run1 (Boolean.And party bt x_b y_b) [peer_d; peer_e] [] = Done (z, out) /\
     is_bit z /\ forall n, 0 < n -> Z.testbit z n = false) /\
  (exists z out,
     run1 (Boolean.Or party bt x_b y_b) [peer_d; peer_e] [] = Done (z, out) /\
     is_bit z /\ forall n, 0 < n -> Z.testbit z n = false).
Proof.
  intros Hx Hxb Hyb Ha Hb Hc Hd He.
  split; [|split; [|split]].
  - unfold Boolean.Share. simpl. auto with bits.
  - unfold Boolean.Reconst, SendRecv.
    destruct (GetId party =? 0); simpl;
      eexists; eexists; (split; [reflexivity|]);
      (split; [|apply is_bit_high_zero]); auto with bits.
  - unfold Boolean.And, Boolean.Reconst_vec, SendRecv_vec.
    destruct (GetId party =? 0); simpl;
      eexists; eexists; (split; [reflexivity|]);
      (split; [|apply is_bit_high_zero]); auto 10 with bits.
  - unfold Boolean.Or, Boolean.And, Boolean.Reconst_vec, SendRecv_vec.
    destruct (GetId party =? 0); simpl;
      eexists; eexists; (split; [reflexivity|]);
      (split; [|apply is_bit_high_zero]); auto 12 with bits.
Qed.

Lemma low_bit_invariant_witness :
  let g := mkRng (fun _ => 0) (fun _ => true) in
  let party := mkParty 0 (mkServer 12345 3 4 0) (mkClient "127.0.0.1" 12345 0 0) true in
  let bt := mkBT 0 1 1 in
  (is_bit (fst (fst (Boolean.Share 1 g))) /\
   is_bit (snd (fst (Boolean.Share 1 g)))) /\
  (exists z out,
     run1 (Boolean.Reconst party 0 1) [0] [] = Done (z, out) /\
     is_bit z /\ forall n, 0 < n -> Z.testbit z n = false) /\
  (exists z out,
     run1 (Boolean.And party bt 0 1) [0; 1] [] = Done (z, out) /\
     is_bit z /\ forall n, 0 < n -> Z.testbit z n = false) /\
  (exists z out,
     run1 (Boolean.Or party bt 0 1) [0; 1] [] = Done (z, out) /\
     is_bit z /\ forall n, 0 < n -> Z.testbit z n = false).
Proof.
  intros g party bt.
  apply (low_bit_invariant 1 g party bt 0 1 0 1); unfold is_bit; simpl; auto.
Defined.

(** ** Party life cycle *)

(** A second [StartCommunication] on a started party does not leave the
    byte counter as it was: a server party that has sent 8 bytes reports
    0 afterwards. *)
Lemma restart_clears_counter :
  let party := mkParty 0 (mkServer 12345 3 4 8) (mkClient "127.0.0.1" 12345 0 0) true in
  let w := mkWorld [sys_socket; sys_setsockopt 3; sys_bind 3 12345;
                    sys_listen 3 3; sys_accept 3] (fun _ _ => 0) in
  is_started_ party = true /\
  GetTotalBytesSent party = 8 /\
  exists party',
    StartCommunication party w = Done (party', w) /\
    GetTotalBytesSent party' = 0 /\
    party' <> party.
Proof.
  intros party w. split; [reflexivity|]. split; [reflexivity|].
  eexists. split; [reflexivity|]. split; [reflexivity|].
  discriminate.
Qed.

(** C7, as the code has it. On a started party [StartCommunication]
    returns without any system call and changes nothing but the byte
    counter of the party's own endpoint, which it resets to 0: the id,
    the sockets, the other endpoint and the latch are as before. *)
Theorem restart_only_clears_counter party w :
  is_started_ party = true ->
  StartCommunication party w = Done (ClearTotalBytesSent party, w) /\
  GetTotalBytesSent (ClearTotalBytesSent party) = 0 /\
  id_ (ClearTotalBytesSent party) = id_ party /\
  is_started_ (ClearTotalBytesSent party) = true /\
  server_fd (p0_ (ClearTotalBytesSent party)) = server_fd (p0_ party) /\
  s_client_fd (p0_ (ClearTotalBytesSent party)) = s_client_fd (p0_ party) /\
  s_port (p0_ (ClearTotalBytesSent party)) = s_port (p0_ party) /\
  c_client_fd (p1_ (ClearTotalBytesSent party)) = c_client_fd (p1_ party) /\
  c_port (p1_ (ClearTotalBytesSent party)) = c_port (p1_ party) /\
  host_address (p1_ (ClearTotalBytesSent party)) = host_address (p1_ party) /\
  (id_ party = 0 -> p1_ (ClearTotalBytesSent party) = p1_ party) /\
  (id_ party <> 0 -> p0_ (ClearTotalBytesSent party) = p0_ party).
Proof.
  intros Hst. unfold StartCommunication, ClearTotalBytesSent, GetTotalBytesSent.
  destruct (id_ party =? 0) eqn:Hid; simpl; rewrite ?Hid, Hst; simpl.
  - apply Z.eqb_eq in Hid. repeat split; auto. intros Hne. contradiction.
  - apply Z.eqb_neq in Hid. repeat split; auto. intros He. contradiction.
Qed.

Lemma restart_only_clears_counter_witness :
  let party := mkParty 0 (mkServer 12345 3 4 8) (mkClient "127.0.0.1" 12345 0 0) true in
  let w := mkWorld [sys_socket; sys_setsockopt 3; sys_bind 3 12345;
                    sys_listen 3 3; sys_accept 3] (fun _ _ => 0) in
  StartCommunication party w = Done (ClearTotalBytesSent party, w) /\
  GetTotalBytesSent (ClearTotalBytesSent party) = 0.
Proof.
  intros party w.
  destruct (restart_only_clears_counter party w eq_refl) as (H1 & H2 & _).
  split; [exact H1 | exact H2].
Defined.

(** The first start of a server party: four calls of [Setup], then
    [accept]; the accepted socket is stored and the latch is set. *)
Example first_start_server :
  StartCommunication
    (mkParty 0 (mkServer 12345 0 0 8) (mkClient "127.0.0.1" 12345 0 0) false)
    (mkWorld [] (fun h s => match s with
                            | sys_socket => 3
                            | sys_accept _ => 4
                            | _ => 0
                            end))
  = Done (mkParty 0 (mkServer 12345 3 4 0) (mkClient "127.0.0.1" 12345 0 0) true,
          mkWorld [sys_socket; sys_setsockopt 3; sys_bind 3 12345;
                   sys_listen 3 3; sys_accept 3]
                  (fun h s => match s with
                              | sys_socket => 3
                              | sys_accept _ => 4
                              | _ => 0
                              end)).
Proof. reflexivity. Qed.

(** ** Byte transport *)

(** When the kernel takes the whole buffer in one call, [SendData] puts
    exactly the buffer on the wire. *)
Lemma SendData_full data wire rets :
  data <> [] ->
  SendData (Z.of_nat (length data) :: rets) data wire = Done (true, wire ++ data).
Proof.
  intros Hne. unfold SendData. simpl.
  destruct data as [|b data]; [contradiction|].
  assert (H0 : (0 <? Z.of_nat (length (b :: data))) = true)
    by (apply Z.ltb_lt; simpl; lia).
  rewrite H0.
  assert (H1 : (Z.of_nat (length (b :: data)) <=? 0) = false)
    by (apply Z.leb_gt; simpl; lia).
  rewrite H1. unfold send_call. rewrite Nat2Z.id, firstn_all.
  destruct rets; simpl; rewrite Z.ltb_irrefl; reflexivity.
Qed.

(** [SendData] and [RecvData] report failure only when a call has
    returned zero or less. *)
Lemma SendData_loop_false rets : forall data total wire w,
  SendData_loop rets data total wire = Done (false, w) ->
  Exists (fun r => r <= 0) rets.
Proof.
  induction rets as [|r rets IH]; intros data total wire w; simpl.
  - destruct (total <? Z.of_nat (length data)); discriminate.
  - destruct (total <? Z.of_nat (length data)); [|discriminate].
    destruct (r <=? 0) eqn:Hr.
    + intros _. left. apply Z.leb_le. exact Hr.
    + intros H. right. eapply IH. exact H.
Qed.

Lemma RecvData_loop_false rets : forall stream buffer total b s,
  RecvData_loop rets stream buffer total = Done (false, b, s) ->
  Exists (fun r => r <= 0) rets.
Proof.
  induction rets as [|r rets IH]; intros stream buffer total b s; simpl.
  - destruct (total <? Z.of_nat (length buffer)); discriminate.
  - destruct (total <? Z.of_nat (length buffer)); [|discriminate].
    destruct (r <=? 0) eqn:Hr.
    + intros _. left. apply Z.leb_le. exact Hr.
    + intros H. right. eapply IH. exact H.
Qed.

(** With positive returns the loop of [SendData] ends, with success, as
    soon as the counts add up to the length of the buffer. *)
Lemma SendData_loop_returns rets : forall data total wire,
  Forall (fun r => 0 < r) rets ->
  Z.of_nat (length data) - total <= Z.of_nat (length rets) ->
  exists w, SendData_loop rets data total wire = Done (true, w).
Proof.
  induction rets as [|r rets IH]; intros data total wire Hpos Hlen; simpl.
  - destruct (total <? Z.of_nat (length data)) eqn:Hlt.
    + apply Z.ltb_lt in Hlt. simpl in Hlen. lia.
    + eexists. reflexivity.
  - destruct (total <? Z.of_nat (length data)) eqn:Hlt; [|eexists; reflexivity].
    inversion Hpos as [|? ? Hr Hrest]; subst.
    assert (Hr' : (r <=? 0) = false) by (apply Z.leb_gt; exact Hr).
    rewrite Hr'. apply IH; [exact Hrest|].
    simpl length in Hlen. lia.
Qed.

(** A value sent in one call: its four bytes are on the wire and the
    counter has moved by four. *)
Example Server_SendValue_full :
  Server_SendValue (mkServer 12345 3 4 8) [4] 3735928559 []
  = Done (mkServer 12345 3 4 12, [Byte.xef; Byte.xbe; Byte.xad; Byte.xde]).
Proof. vm_compute. reflexivity. Qed.

Example RecvValue_bytes_full :
  RecvValue_bytes [4] [Byte.xef; Byte.xbe; Byte.xad; Byte.xde; Byte.x01] 0
  = Done (3735928559, [Byte.x01]).
Proof. vm_compute. reflexivity. Qed.

(** C3 at a short write. A buffer of four bytes, a kernel that takes two
    bytes per call: [SendData] reports success with the first two bytes
    on the wire twice and the last two never sent; [RecvData], reading
    two bytes per call from a stream that starts with 1 2 3 4, reports
    success with 3 4 over the start of the buffer and the rest of the
    buffer as it was. Both keep failing only on a return of zero or
    less. *)
Theorem SendData_RecvData_short_transfer :
  let b1 := Byte.x01 in let b2 := Byte.x02 in
  let b3 := Byte.x03 in let b4 := Byte.x04 in
  let z := Byte.x00 in
  Forall (short_positive 4) [2; 2] /\
  SendData [2; 2] [b1; b2; b3; b4] [] = Done (true, [b1; b2; b1; b2]) /\
  [b1; b2; b1; b2] <> [b1; b2; b3; b4] /\
  RecvData [2; 2] [b1; b2; b3; b4] [z; z; z; z] = Done (true, [b3; b4; z; z], []) /\
  [b3; b4; z; z] <> [b1; b2; b3; b4].
Proof.
  intros b1 b2 b3 b4 z.
  split.
  { repeat (constructor; [unfold short_positive; simpl; lia|]). constructor. }
  split; [reflexivity|]. split; [discriminate|].
  split; [reflexivity|]. discriminate.
Qed.

(** ** Vector multiplication *)

Lemma Additive_Reconst_loop_spec ss n : forall i x_0 x_1 out,
  (i + n <= length x_0)%nat -> (i + n <= length x_1)%nat ->
  (i + n <= length out)%nat ->
  exists out',
    Additive.Reconst_loop ss n i x_0 x_1 out = Ret out' /\
    length out' = length out /\
    (forall j a b, (i <= j < i + n)%nat ->
       x_0 !! j = Some a -> x_1 !! j = Some b ->
       out' !! j = Some (Mod (add32 a b) (bitsize_ ss))) /\
    (forall j, (j < i)%nat -> out' !! j = out !! j).
Proof.
  induction n as [|n IH]; intros i x_0 x_1 out H0 H1 Ho; simpl.
  - exists out. split; [reflexivity|]. split; [reflexivity|].
    split; [intros; lia | reflexivity].
  - destruct (lookup_lt_is_Some_2 x_0 i) as [a Ha]; [lia|].
    destruct (lookup_lt_is_Some_2 x_1 i) as [b Hb]; [lia|].
    rewrite Ha, Hb.
    destruct (IH (S i) x_0 x_1 (<[i:=Mod (add32 a b) (bitsize_ ss)]> out))
      as (out' & Hrun & Hlen & Hnew & Hold);
      rewrite ?length_insert; try lia.
    exists out'. split; [exact Hrun|].
    rewrite length_insert in Hlen. split; [exact Hlen|]. split.
    + intros j a' b' Hj Ha' Hb'.
      destruct (decide (j = i)) as [->|Hne].
      * rewrite Hold by lia. rewrite list_lookup_insert_eq by lia.
        congruence.
      * apply Hnew; [lia | assumption | assumption].
    + intros j Hj. rewrite Hold by lia.
      apply list_lookup_insert_ne. lia.
Qed.

Lemma Mult_mask_loop_spec ss n : forall i bt_vec x_vec y_vec de,
  (i + n <= length x_vec)%nat -> (i + n <= length y_vec)%nat ->
  (i + n <= length bt_vec)%nat -> (2 * (i + n) <= length de)%nat ->
  exists own,
    Additive.Mult_mask_loop ss n i bt_vec x_vec y_vec de = Ret own /\
    length own = length de /\
    (forall j x y bt, (i <= j < i + n)%nat ->
       x_vec !! j = Some x -> y_vec !! j = Some y -> bt_vec !! j = Some bt ->
       own !! (2 * j)%nat = Some (Mod (sub32 x (bt_a bt)) (bitsize_ ss)) /\
       own !! (2 * j + 1)%nat = Some (Mod (sub32 y (bt_b bt)) (bitsize_ ss))) /\
    (forall m, (m < 2 * i)%nat -> own !! m = de !! m).
Proof.
  induction n as [|n IH]; intros i bt_vec x_vec y_vec de Hx Hy Hb Hd; simpl.
  - exists de. split; [reflexivity|]. split; [reflexivity|].
    split; [intros; lia | reflexivity].
  - destruct (lookup_lt_is_Some_2 x_vec i) as [x Hxi]; [lia|].
    destruct (lookup_lt_is_Some_2 y_vec i) as [y Hyi]; [lia|].
    destruct (lookup_lt_is_Some_2 bt_vec i) as [bt Hbi]; [lia|].
    rewrite Hxi, Hyi, Hbi.
    set (de' := <[(i + (i + 0) + 1)%nat:=Mod (sub32 y (bt_b bt)) (bitsize_ ss)]>
                 (<[(i + (i + 0))%nat:=Mod (sub32 x (bt_a bt)) (bitsize_ ss)]> de)).
    assert (Hlen' : length de' = length de)
      by (unfold de'; rewrite !length_insert; reflexivity).
    destruct (IH (S i) bt_vec x_vec y_vec de')
      as (own & Hrun & Hlen & Hnew & Hold); try lia.
    exists own. split; [exact Hrun|]. split; [lia|]. split.
    + intros j x' y' bt' Hj Hx' Hy' Hb'.
      destruct (decide (j = i)) as [->|Hne].
      * rewrite !Hold by lia. unfold de'.
        replace x' with x by congruence. replace y' with y by congruence.
        replace bt' with bt by congruence.
        split.
        -- rewrite list_lookup_insert_ne by lia.
           replace (2 * i)%nat with (i + (i + 0))%nat by lia.
           apply list_lookup_insert_eq. lia.
        -- replace (2 * i + 1)%nat with (i + (i + 0) + 1)%nat by lia.
           apply list_lookup_insert_eq. rewrite length_insert. lia.
      * apply Hnew; [lia | assumption | assumption | assumption].
    + intros m Hm. rewrite Hold by lia. unfold de'.
      rewrite !list_lookup_insert_ne by lia. reflexivity.
Qed.

Lemma Mult_combine_loop_spec ss party n : forall i bt_vec de z,
  (i + n <= length bt_vec)%nat -> (2 * (i + n) <= length de)%nat ->
  (i + n <= length z)%nat ->
  exists z',
    Additive.Mult_combine_loop ss party n i bt_vec de z = Ret z' /\
    length z' = length z /\
    (forall j d e bt, (i <= j < i + n)%nat ->
       de !! (2 * j)%nat = Some d -> de !! (2 * j + 1)%nat = Some e ->
       bt_vec !! j = Some bt ->
       z' !! j = Some (Additive.Mult_combine ss party bt d e)) /\
    (forall j, (j < i)%nat -> z' !! j = z !! j).
Proof.
  induction n as [|n IH]; intros i bt_vec de z Hb Hd Hz.
  - exists z. split; [reflexivity|]. split; [reflexivity|].
    split; [intros; lia | reflexivity].
  - cbn [Additive.Mult_combine_loop].
    destruct (lookup_lt_is_Some_2 de (2 * i)%nat) as [d Hdi]; [lia|].
    destruct (lookup_lt_is_Some_2 de (2 * i + 1)%nat) as [e Hei]; [lia|].
    destruct (lookup_lt_is_Some_2 bt_vec i) as [bt Hbi]; [lia|].
    rewrite Hdi, Hei, Hbi.
    destruct (IH (S i) bt_vec de (<[i:=Additive.Mult_combine ss party bt d e]> z))
      as (z' & Hrun & Hlen & Hnew & Hold);
      rewrite ?length_insert; try lia.
    exists z'. split; [exact Hrun|].
    rewrite length_insert in Hlen. split; [exact Hlen|]. split.
    + intros j d' e' bt' Hj Hd' He' Hb'.
      destruct (decide (j = i)) as [->|Hne].
      * rewrite Hold by lia. rewrite list_lookup_insert_eq by lia.
        congruence.
      * apply Hnew; [lia | assumption | assumption | assumption].
    + intros j Hj. rewrite Hold by lia.
      apply list_lookup_insert_ne. lia.
Qed.

(** What the scalar [Mult] computes at one party from the words [pd] and
    [pe] received from the peer. *)
Lemma run1_Mult ss party bt x y pd pe :
  let own_d := Mod (sub32 x (bt_a bt)) (bitsize_ ss) in
  let own_e := Mod (sub32 y (bt_b bt)) (bitsize_ ss) in
  let d := if GetId party =? 0 then Mod (add32 own_d pd) (bitsize_ ss)
           else Mod (add32 pd own_d) (bitsize_ ss) in
  let e := if GetId party =? 0 then Mod (add32 own_e pe) (bitsize_ ss)
           else Mod (add32 pe own_e) (bitsize_ ss) in
  run1 (Additive.Mult ss party bt x y) [pd; pe] []
  = Done (Additive.Mult_combine ss party bt d e, [own_d; own_e]).
Proof.
  intros own_d own_e d e. subst own_d own_e d e.
  unfold Additive.Mult, Additive.Mult_combine, Additive.Reconst_vec, SendRecv_vec.
  destruct (GetId party =? 0); reflexivity.
Qed.

Lemma run1_bind_Ret {A B : Type} (a : A) (f : A -> Proto B) inc out :
  run1 (Ret a ≫= f) inc out = run1 (f a) inc out.
Proof. reflexivity. Qed.

(** C6, as the code has it. The vector [Mult] compares no lengths: it
    performs as many multiplications as [z_vec] has cells, and whenever
    [x_vec], [y_vec] and [bt_vec] have at least that many elements (equal
    in length or not) and the peer's masked differences arrive, it
    returns normally; cell i of the result is what the scalar [Mult]
    returns on x_vec[i], y_vec[i], bt_vec[i] and the peer's words 2i and
    2i+1. *)
Theorem Mult_vec_unchecked ss party bt_vec x_vec y_vec z_vec inc :
  (length z_vec <= length x_vec)%nat ->
  (length z_vec <= length y_vec)%nat ->
  (length z_vec <= length bt_vec)%nat ->
  (2 * length z_vec <= length inc)%nat ->
  exists z' out,
    run1 (Additive.Mult_vec ss party bt_vec x_vec y_vec z_vec) inc []
    = Done (z', out) /\
    length z' = length z_vec /\
    forall i x y bt pd pe,
      (i < length z_vec)%nat ->
      x_vec !! i = Some x -> y_vec !! i = Some y -> bt_vec !! i = Some bt ->
      inc !! (2 * i)%nat = Some pd -> inc !! (2 * i + 1)%nat = Some pe ->
      exists zi sent,
        run1 (Additive.Mult ss party bt x y) [pd; pe] [] = Done (zi, sent) /\
        z' !! i = Some zi.
Proof.
  intros Hx Hy Hb Hinc.
  set (num := length z_vec) in *.
  unfold Additive.Mult_vec. fold num.
  set (zeros := replicate (num * 2) 0).
  assert (Hz : length zeros = (2 * num)%nat)
    by (unfold zeros; rewrite length_replicate; lia).
  destruct (Mult_mask_loop_spec ss num 0 bt_vec x_vec y_vec zeros)
    as (own & Hown & Hlown & Hmask & _); try lia.
  rewrite Hown, run1_bind_Ret.
  assert (Hle : (length zeros <=? length inc)%nat = true)
    by (apply Nat.leb_le; lia).
  assert (Hpeer : length (firstn (length zeros) inc) = (2 * num)%nat)
    by (rewrite length_take; lia).
  unfold Additive.Reconst_vec, SendRecv_vec.
  destruct (GetId party =? 0) eqn:Hid.
  - cbn [mbind Proto_bind bind SendVector RecvVector run1 fst snd].
    rewrite Hle.
    destruct (Additive_Reconst_loop_spec ss (length zeros) 0 own
                (firstn (length zeros) inc) zeros)
      as (de & Hde & Hlde & Hsum & _); try lia.
    rewrite Hde. cbn [bind].
    destruct (Mult_combine_loop_spec ss party num 0 bt_vec de z_vec)
      as (z' & Hz' & Hlz & Hcomb & _); try (fold num; lia).
    rewrite Hz'. cbn [run1].
    exists z'. eexists. split; [reflexivity|]. split; [exact Hlz|].
    intros i x y bt pd pe Hi Hxi Hyi Hbi Hpd Hpe.
    rewrite run1_Mult, Hid.
    eexists. eexists. split; [reflexivity|].
    destruct (Hmask i x y bt) as [Hod Hoe]; try assumption; try lia.
    apply Hcomb; try assumption; try lia.
    + apply Hsum; [lia | exact Hod |].
      rewrite lookup_take_lt by lia. exact Hpd.
    + apply Hsum; [lia | exact Hoe |].
      rewrite lookup_take_lt by lia. exact Hpe.
  - cbn [mbind Proto_bind bind SendVector RecvVector run1 fst snd].
    rewrite Hle.
    destruct (Additive_Reconst_loop_spec ss (length zeros) 0
                (firstn (length zeros) inc) own zeros)
      as (de & Hde & Hlde & Hsum & _); try lia.
    rewrite Hde. cbn [bind].
    destruct (Mult_combine_loop_spec ss party num 0 bt_vec de z_vec)
      as (z' & Hz' & Hlz & Hcomb & _); try (fold num; lia).
    rewrite Hz'. cbn [run1].
    exists z'. eexists. split; [reflexivity|]. split; [exact Hlz|].
    intros i x y bt pd pe Hi Hxi Hyi Hbi Hpd Hpe.
    rewrite run1_Mult, Hid.
    eexists. eexists. split; [reflexivity|].
    destruct (Hmask i x y bt) as [Hod Hoe]; try assumption; try lia.
    apply Hcomb; try assumption; try lia.
    + apply Hsum; [lia | | exact Hod].
      rewrite lookup_take_lt by lia. exact Hpd.
    + apply Hsum; [lia | | exact Hoe].
      rewrite lookup_take_lt by lia. exact Hpe.
Qed.

(** A concrete run with operands of different lengths: [x_vec] has two
    elements, [y_vec], [bt_vec] and [z_vec] one.  The call returns a
    product share; it does not fail. *)
Lemma Mult_vec_length_mismatch_proceeds :
  let ss := mkASS 32 in
  let party := mkParty 0 (mkServer 12345 3 4 0) (mkClient "127.0.0.1" 12345 0 0) true in
  let bt_vec := [mkBT 1 2 10] in
  let x_vec := [2; 99] in
  let y_vec := [1] in
  let z_vec := [0] in
  length x_vec <> length y_vec /\
  length x_vec <> length bt_vec /\
  length x_vec <> length z_vec /\
  run1 (Additive.Mult_vec ss party bt_vec x_vec y_vec z_vec) [3; 2] []
  = Done ([23], [1; 4294967295]) /\
  forall f, run1 (Additive.Mult_vec ss party bt_vec x_vec y_vec z_vec) [3; 2] []
            <> Faulted f.
Proof.
  intros ss party bt_vec x_vec y_vec z_vec.
  assert (Hrun : run1 (Additive.Mult_vec ss party bt_vec x_vec y_vec z_vec) [3; 2] []
                 = Done ([23], [1; 4294967295]))
    by (vm_compute; reflexivity).
  split; [simpl; lia|]. split; [simpl; lia|]. split; [simpl; lia|].
  split; [exact Hrun|].
  intros f. rewrite Hrun. discriminate.
Qed.

Lemma Mult_vec_unchecked_witness :
  let ss := mkASS 32 in
  let party := mkParty 0 (mkServer 12345 3 4 0) (mkClient "127.0.0.1" 12345 0 0) true in
  let bt_vec := [mkBT 1 2 10] in
  let x_vec := [2; 99] in
  let y_vec := [1] in
  let z_vec := [0] in
  let inc := [3; 2] in
  exists z' out,
    run1 (Additive.Mult_vec ss party bt_vec x_vec y_vec z_vec) inc []
    = Done (z', out) /\
    length z' = length z_vec /\
    forall i x y bt pd pe,
      (i < length z_vec)%nat ->
      x_vec !! i = Some x -> y_vec !! i = Some y -> bt_vec !! i = Some bt ->
      inc !! (2 * i)%nat = Some pd -> inc !! (2 * i + 1)%nat = Some pe ->
      exists zi sent,
        run1 (Additive.Mult ss party bt x y) [pd; pe] [] = Done (zi, sent) /\
        z' !! i = Some zi.
Proof.
  intros ss party bt_vec x_vec y_vec z_vec inc.
  apply (Mult_vec_unchecked ss party bt_vec x_vec y_vec z_vec inc);
    simpl; lia.
Defined.

(** With an operand shorter than [z_vec] the unchecked index leaves the
    operand. *)
Example Mult_vec_short_operand :
  run1 (Additive.Mult_vec (mkASS 32)
          (mkParty 0 (mkServer 12345 3 4 0) (mkClient "127.0.0.1" 12345 0 0) true)
          [mkBT 1 2 10] [] [1] [0]) [3; 2] []
  = Faulted out_of_range.
Proof. reflexivity. Qed.

(** ** Persistence of triples *)

Lemma append_cons ch s t : String ch s +:+ t = String ch (s +:+ t).
Proof. reflexivity. Qed.

Lemma append_nil_l s : EmptyString +:+ s = s.
Proof. reflexivity. Qed.

Lemma append_assoc s t u : (s +:+ t) +:+ u = s +:+ (t +:+ u).
Proof.
  induction s as [|ch s IH]; [reflexivity|].
  rewrite !append_cons, IH. reflexivity.
Qed.

Lemma is_digit_neq delim ch :
  is_digit delim = false -> is_digit ch = true -> Ascii.eqb ch delim = false.
Proof.
  intros Hd Hc. destruct (Ascii.eqb_spec ch delim) as [->|]; [|reflexivity].
  congruence.
Qed.

Lemma digits_string_of_uint d : digits (NilEmpty.string_of_uint d) = true.
Proof. induction d; simpl; auto. Qed.

Lemma cut_digits delim s rest :
  is_digit delim = false -> digits s = true ->
  cut delim (s +:+ String delim rest) = (s, rest).
Proof.
  intros Hd. induction s as [|ch s IH]; intros Hs.
  - rewrite append_nil_l. simpl. rewrite Ascii.eqb_refl. reflexivity.
  - simpl in Hs. apply andb_true_iff in Hs as [Hch Hs].
    rewrite append_cons. simpl.
    rewrite (is_digit_neq delim ch Hd Hch), (IH Hs). reflexivity.
Qed.

Lemma fields_digits_end delim s :
  is_digit delim = false -> digits s = true -> fields delim s = (s, []).
Proof.
  intros Hd. induction s as [|ch s IH]; intros Hs; [reflexivity|].
  simpl in Hs. apply andb_true_iff in Hs as [Hch Hs].
  simpl. rewrite (IH Hs), (is_digit_neq delim ch Hd Hch). reflexivity.
Qed.

Lemma fields_digits delim s rest :
  is_digit delim = false -> digits s = true ->
  fields delim (s +:+ String delim rest) = (s, split delim rest).
Proof.
  intros Hd. induction s as [|ch s IH]; intros Hs.
  - rewrite append_nil_l. simpl. rewrite Ascii.eqb_refl.
    unfold split. destruct rest; [reflexivity|].
    destruct (fields delim (String a rest)). reflexivity.
  - simpl in Hs. apply andb_true_iff in Hs as [Hch Hs].
    rewrite append_cons. simpl.
    rewrite (IH Hs), (is_digit_neq delim ch Hd Hch). reflexivity.
Qed.

Lemma to_string_digits n : digits (to_string n) = true.
Proof. apply digits_string_of_uint. Qed.

Lemma to_string_nonempty n : to_string n <> EmptyString.
Proof.
  unfold to_string. destruct (Z.to_N n) as [|p]; [discriminate|].
  simpl. intros H.
  apply (DecimalPos.Unsigned.to_uint_nonnil p).
  apply (f_equal NilEmpty.uint_of_string) in H.
  rewrite NilEmpty.usu in H. simpl in H. congruence.
Qed.

Lemma stoul_to_string n : 0 <= n -> stoul (to_string n) = Some n.
Proof.
  intros Hn. unfold stoul.
  pose proof (to_string_nonempty n) as Hne.
  destruct (to_string n) eqn:E; [contradiction|].
  rewrite <- E. unfold to_string.
  rewrite NilEmpty.usu, DecimalN.Unsigned.of_to, Z2N.id by exact Hn.
  reflexivity.
Qed.

Lemma split_digits_last delim s :
  is_digit delim = false -> digits s = true -> s <> EmptyString ->
  split delim s = [s].
Proof.
  intros Hd Hs Hne. unfold split. destruct s; [contradiction|].
  rewrite (fields_digits_end delim _ Hd Hs). reflexivity.
Qed.

Lemma split_digits_cons delim s rest :
  is_digit delim = false -> digits s = true -> s <> EmptyString ->
  split delim (s +:+ String delim rest) = s :: split delim rest.
Proof.
  intros Hd Hs Hne. unfold split at 1.
  destruct (s +:+ String delim rest) eqn:E.
  - destruct s; [contradiction | discriminate].
  - rewrite <- E, (fields_digits delim s rest Hd Hs). reflexivity.
Qed.

(** A line "a,b,c" read back by [SplitStringToUint32]. *)
Lemma SplitStringToUint32_line bt :
  is_u32_triple bt ->
  SplitStringToUint32
    (to_string (bt_a bt) +:+ String comma
       (to_string (bt_b bt) +:+ String comma (to_string (bt_c bt)))) []
  = Done [bt_a bt; bt_b bt; bt_c bt].
Proof.
  intros (Ha & Hb & Hc). unfold SplitStringToUint32.
  rewrite !split_digits_cons, split_digits_last
    by (reflexivity || apply to_string_digits || apply to_string_nonempty).
  unfold is_u32 in *. simpl.
  rewrite !stoul_to_string by lia.
  rewrite !u32_small by (unfold is_u32; lia). reflexivity.
Qed.

Lemma cut_skip delim ch0 s rest :
  is_digit delim = false -> Ascii.eqb ch0 delim = false -> digits s = true ->
  cut delim (s +:+ String ch0 rest)
  = (s +:+ String ch0 (fst (cut delim rest)), snd (cut delim rest)).
Proof.
  intros Hd H0. induction s as [|ch s IH]; intros Hs.
  - rewrite !append_nil_l. simpl. rewrite H0.
    destruct (cut delim rest). reflexivity.
  - simpl in Hs. apply andb_true_iff in Hs as [Hch Hs].
    rewrite !append_cons. simpl.
    rewrite (is_digit_neq delim ch Hd Hch), (IH Hs). reflexivity.
Qed.

Lemma triple_line_app bt rest :
  triple_line bt +:+ rest
  = to_string (bt_a bt) +:+ String comma
      (to_string (bt_b bt) +:+ String comma
         (to_string (bt_c bt) +:+ String newline rest)).
Proof.
  unfold triple_line.
  rewrite append_assoc, append_cons, append_assoc, append_cons, append_assoc,
    append_cons, append_nil_l.
  reflexivity.
Qed.

Lemma getline_triple_line bt rest :
  getline newline (triple_line bt +:+ rest)
  = Some (to_string (bt_a bt) +:+ String comma
            (to_string (bt_b bt) +:+ String comma (to_string (bt_c bt))),
          rest).
Proof.
  rewrite triple_line_app. unfold getline.
  pose proof (to_string_nonempty (bt_a bt)) as Hne.
  destruct (to_string (bt_a bt) +:+ _) eqn:E.
  - destruct (to_string (bt_a bt)); [contradiction | discriminate].
  - rewrite <- E. f_equal.
    rewrite !cut_skip by (reflexivity || apply to_string_digits).
    rewrite cut_digits by (reflexivity || apply to_string_digits).
    reflexivity.
Qed.

Lemma write_triples_lines bt_vec stream :
  write_triples bt_vec stream = stream +:+ triple_lines bt_vec.
Proof.
  revert stream. induction bt_vec as [|bt rest IH]; intros stream; simpl.
  - induction stream as [|ch s IHs]; [reflexivity|].
    rewrite append_cons, <- IHs. reflexivity.
  - rewrite IH, append_assoc. reflexivity.
Qed.

Lemma read_triples_lines bt_vec : forall bts,
  Forall is_u32_triple bt_vec ->
  read_triples (length bt_vec) (triple_lines bt_vec) bts = Done (bts ++ bt_vec).
Proof.
  induction bt_vec as [|bt rest IH]; intros bts Hall.
  - simpl. rewrite app_nil_r. reflexivity.
  - inversion Hall as [|? ? Hbt Hrest]; subst.
    cbn [length read_triples triple_lines].
    rewrite getline_triple_line, (SplitStringToUint32_line bt Hbt).
    cbn [lookup list_lookup].
    rewrite (IH _ Hrest), <- app_assoc.
    destruct bt. reflexivity.
Qed.

Lemma ReadNumCountFromFile_count n rest :
  0 <= n < 2 ^ 32 ->
  ReadNumCountFromFile (to_string n +:+ String newline rest) = (n, rest).
Proof.
  intros Hn. unfold ReadNumCountFromFile, getline.
  pose proof (to_string_nonempty n) as Hne.
  destruct (to_string n +:+ _) eqn:E.
  - destruct (to_string n); [contradiction | discriminate].
  - rewrite <- E, cut_digits by (reflexivity || apply to_string_digits).
    rewrite stoul_to_string by lia.
    assert (H : (n <? 2 ^ 32) = true) by (apply Z.ltb_lt; lia).
    rewrite H. reflexivity.
Qed.

Lemma WriteBeaverTriplesToFile_content fs file_path bt_vec :
  file_path ∉ locked fs ->
  WriteBeaverTriplesToFile fs file_path bt_vec
  = Done (close_out fs file_path
            (to_string (Z.of_nat (length bt_vec)) +:+ String newline
               (triple_lines bt_vec))).
Proof.
  intros Hfree. unfold WriteBeaverTriplesToFile, OpenFile_out.
  destruct (decide (file_path ∈ locked fs)) as [Hin|_]; [contradiction|].
  rewrite write_triples_lines, append_nil_l, append_assoc, append_cons,
    append_nil_l.
  reflexivity.
Qed.

(** C9. Persistence of triples round-trips: [WriteBeaverTriplesToFile]
    stores the element count on the first line and one line a,b,c per
    triple, and [ReadBeaverTriplesFromFile] on that file gives back the
    vector written, element by element. *)
Theorem BeaverTriples_roundtrip fs file_path bt_vec old :
  file_path ∉ locked fs ->
  Forall is_u32_triple bt_vec ->
  Z.of_nat (length bt_vec) < 2 ^ 32 ->
  exists fs',
    WriteBeaverTriplesToFile fs file_path bt_vec = Done fs' /\
    files fs' !! file_path
      = Some (to_string (Z.of_nat (length bt_vec)) +:+ String newline
                (triple_lines bt_vec)) /\
    ReadBeaverTriplesFromFile fs' file_path old = Done bt_vec.
Proof.
  intros Hfree Hall Hlen.
  rewrite WriteBeaverTriplesToFile_content by exact Hfree.
  eexists. split; [reflexivity|].
  assert (Hfile : files (close_out fs file_path
                    (to_string (Z.of_nat (length bt_vec)) +:+ String newline
                       (triple_lines bt_vec))) !! file_path
                  = Some (to_string (Z.of_nat (length bt_vec)) +:+ String newline
                            (triple_lines bt_vec))).
  { unfold close_out. cbn [files]. apply lookup_insert_eq. }
  split; [exact Hfile|].
  unfold ReadBeaverTriplesFromFile, OpenFile_in. rewrite Hfile.
  rewrite ReadNumCountFromFile_count by lia.
  rewrite Nat2Z.id. apply (read_triples_lines bt_vec []). exact Hall.
Qed.

Lemma BeaverTriples_roundtrip_witness :
  let fs := mkFS ∅ ∅ in
  let bt_vec := [mkBT 3 5 15; mkBT 4294967295 0 1] in
  exists fs',
    WriteBeaverTriplesToFile fs "bt_0.dat" bt_vec = Done fs' /\
    files fs' !! "bt_0.dat"
      = Some (to_string (Z.of_nat (length bt_vec)) +:+ String newline
                (triple_lines bt_vec)) /\
    ReadBeaverTriplesFromFile fs' "bt_0.dat" [] = Done bt_vec.
Proof.
  intros fs bt_vec.
  apply (BeaverTriples_roundtrip fs "bt_0.dat" bt_vec []).
  - apply not_elem_of_empty.
  - repeat constructor; simpl; lia.
  - simpl. lia.
Defined.

(** The text written for two triples, and the same text read back. *)
Example triple_file_text :
  to_string 2 +:+ String newline (triple_lines [mkBT 3 5 15; mkBT 4294967295 0 1])
  = "2
3,5,15
4294967295,0,1
".
Proof. vm_compute. reflexivity. Qed.

Example triple_file_read :
  read_triples 2 "3,5,15
4294967295,0,1
" [] = Done [mkBT 3 5 15; mkBT 4294967295 0 1].
Proof. vm_compute. reflexivity. Qed.

(** A line with two values only is indexed past its end. *)
Example triple_file_short_line :
  read_triples 1 "3,5
" [] = Faulted out_of_range.
Proof. vm_compute. reflexivity. Qed.

Lemma ReadNumCountFromFile_overflow n rest :
  2 ^ 32 <= n ->
  ReadNumCountFromFile (to_string n +:+ String newline rest) = (0, rest).
Proof.
  intros Hn. unfold ReadNumCountFromFile, getline.
  pose proof (to_string_nonempty n) as Hne.
  destruct (to_string n +:+ _) eqn:E.
  - destruct (to_string n); [contradiction | discriminate].
  - rewrite <- E, cut_digits by (reflexivity || apply to_string_digits).
    rewrite stoul_to_string by lia.
    assert (H : (n <? 2 ^ 32) = false) by (apply Z.ltb_ge; lia).
    rewrite H. reflexivity.
Qed.

(** The element count is read back as a [uint32_t]: a vector of 2^32
    triples is written with the first line 4294967296 and read back
    empty. *)
Lemma BeaverTriples_roundtrip_count_overflow :
  let fs := mkFS ∅ ∅ in
  let bt_vec := replicate (Z.to_nat (2 ^ 32)) (mkBT 0 0 0) in
  Forall is_u32_triple bt_vec /\
  exists fs',
    WriteBeaverTriplesToFile fs "bt_0.dat" bt_vec = Done fs' /\
    ReadBeaverTriplesFromFile fs' "bt_0.dat" [] = Done [] /\
    bt_vec <> [].
Proof.
  intros fs bt_vec. split.
  { apply Forall_replicate. unfold is_u32_triple, is_u32. simpl. lia. }
  rewrite WriteBeaverTriplesToFile_content by apply not_elem_of_empty.
  eexists. split; [reflexivity|]. split.
  - unfold ReadBeaverTriplesFromFile, OpenFile_in, close_out. cbn [files].
    rewrite lookup_insert_eq.
    unfold bt_vec at 1. rewrite length_replicate, Z2Nat.id by lia.
    rewrite ReadNumCountFromFile_overflow by lia.
    reflexivity.
  - intros H. apply (f_equal length) in H.
    unfold bt_vec in H. rewrite length_replicate in H.
    cbn [length] in H. lia.
Qed.

(** * Further properties *)

(** ** Exchanges *)

Lemma run2_ret {A B : Type} fuel (a : A) (b : B) c01 c10 :
  run2 fuel (Config (Ret a) (Ret b) c01 c10) = Done (a, b).
Proof. destruct fuel; reflexivity. Qed.

(** One round: party 0 sends [w0] and waits for [n1] words, party 1 waits
    for [n0] words and then sends [w1].  Four moves end it. *)
Lemma session_exchange {A B : Type} (w0 w1 : list Z) (n0 n1 : nat)
    (k0 : list Z -> Proto A) (k1 : list Z -> Proto B) a b fuel :
  n0 = length w0 -> n1 = length w1 ->
  k0 w1 = Ret a -> k1 w0 = Ret b ->
  (4 <= fuel)%nat ->
  session fuel (SendWords w0 (RecvWords n1 k0))
               (RecvWords n0 (fun ws => SendWords w1 (k1 ws)))
  = Done (a, b).
Proof.
  intros -> -> H0 H1 Hf.
  do 4 (destruct fuel as [|fuel]; [lia|]).
  unfold session.
  cbn [run2 prog0 prog1 step0 step1 c01 c10 app].
  destruct w1 as [|v1 w1].
  - cbn [length Nat.leb step0 step1 prog0 prog1 c01 c10 firstn skipn run2].
    rewrite H0.
    cbn [run2 prog0 prog1 step0 step1 c01 c10].
    rewrite Nat.leb_refl, firstn_all, H1.
    cbn [run2 prog0 prog1 step0 step1 c01 c10 app].
    apply run2_ret.
  - cbn [length Nat.leb step0 step1 prog0 prog1 c01 c10 run2].
    rewrite Nat.leb_refl, firstn_all.
    cbn [run2 prog0 prog1 step0 step1 c01 c10 app length].
    rewrite Nat.leb_refl.
    change (firstn (S (length w1)) (v1 :: w1)) with (firstn (length (v1 :: w1)) (v1 :: w1)).
    rewrite firstn_all, H0, H1.
    apply run2_ret.
Qed.

(** Two parties that both take the receiving role wait for each other
    for ever. *)
Lemma run2_both_waiting {A B : Type} fuel n0 n1
    (k0 : list Z -> Proto A) (k1 : list Z -> Proto B) :
  (0 < n0)%nat -> (0 < n1)%nat ->
  run2 fuel (Config (RecvWords n0 k0) (RecvWords n1 k1) [] []) = Blocked.
Proof.
  intros H0 H1. destruct fuel; [reflexivity|].
  cbn [run2 prog0 prog1 step0 step1 c01 c10 length].
  destruct n0; [lia|]. destruct n1; [lia|]. reflexivity.
Qed.



(** X2. Two parties that both carry a non-zero id both start
    [Party::SendRecv] with a receive: the exchange never completes,
    whatever the number of moves allowed. *)
Theorem SendRecv_same_role_blocks party0 party1 x0 x1 y0 y1 fuel :
  GetId party0 <> 0 -> GetId party1 <> 0 ->
  session fuel (SendRecv party0 x0 x1) (SendRecv party1 y0 y1) = Blocked.
Proof.
  intros H0 H1. unfold SendRecv, session.
  apply Z.eqb_neq in H0, H1. rewrite H0, H1.
  apply run2_both_waiting; lia.
Qed.

Lemma SendRecv_same_role_blocks_witness :
  let party0 := mkParty 1 (mkServer 12345 3 4 0) (mkClient "127.0.0.1" 12345 0 0) true in
  let party1 := mkParty 1 (mkServer 12345 0 0 0) (mkClient "127.0.0.1" 12345 3 0) true in
  session 1000 (SendRecv party0 11 0) (SendRecv party1 0 22) = Blocked.
Proof.
  intros party0 party1.
  apply (SendRecv_same_role_blocks party0 party1 11 0 0 22 1000); simpl; lia.
Defined.

(** ** Boolean engine on whole words *)



(** X4. Secure AND is correct bit by bit on whole words: for any shares
    of x, y and of a triple whose c shares combine to the conjunction of
    the combined a and b, [And] at party 0 and at party 1 returns z0, z1
    with z0 XOR z1 = x AND y. *)
Theorem And_correct x0 x1 y0 y1 a0 a1 b0 b1 c0 c1 party0 party1 fuel :
  Z.lxor c0 c1 = Z.land (Z.lxor a0 a1) (Z.lxor b0 b1) ->
  GetId party0 = 0 -> GetId party1 = 1 -> (4 <= fuel)%nat ->
  exists z0 z1,
    session fuel (Boolean.And party0 (mkBT a0 b0 c0) x0 y0)
                 (Boolean.And party1 (mkBT a1 b1 c1) x1 y1)
    = Done (z0, z1) /\
    Z.lxor z0 z1 = Z.land (Z.lxor x0 x1) (Z.lxor y0 y1).
Proof.
  intros Hc H0 H1 Hf.
  apply lxor_solve in Hc. subst c1.
  unfold Boolean.And, Boolean.Reconst_vec, SendRecv_vec.
  run_session H0 H1 fuel.
  all: eexists; eexists; (split; [reflexivity|]).
  all: bitwise.
Qed.

Lemma And_correct_witness :
  let party0 := mkParty 0 (mkServer 12345 3 4 0) (mkClient "127.0.0.1" 12345 0 0) true in
  let party1 := mkParty 1 (mkServer 12345 0 0 0) (mkClient "127.0.0.1" 12345 3 0) true in
  exists z0 z1,
    session 4 (Boolean.And party0 (mkBT 5 9 12) 10 6)
              (Boolean.And party1 (mkBT 3 12 8) 12 5)
    = Done (z0, z1) /\
    Z.lxor z0 z1 = Z.land (Z.lxor 10 12) (Z.lxor 6 5).
Proof.
  intros party0 party1.
  apply (And_correct 10 12 6 5 5 3 9 12 12 8 party0 party1 4);
    try reflexivity; try lia.
Defined.

(** ** Arithmetic engine: further operations *)

(** The algebra of Beaver's protocol modulo [2 ^ k]. *)
Lemma Beaver_sum k X Y A B C a0 a1 b0 b1 c0 c1 :
  eqm k (a0 + a1) A -> eqm k (b0 + b1) B -> eqm k (c0 + c1) C ->
  eqm k C (A * B) ->
  eqm k ((Y - B) * a0 + (X - A) * b0 + c0 + (X - A) * (Y - B)
         + ((Y - B) * a1 + (X - A) * b1 + c1))
        (X * Y).
Proof.
  intros Ha Hb Hc Hab.
  transitivity ((Y - B) * (a0 + a1) + (X - A) * (b0 + b1) + (c0 + c1)
                + (X - A) * (Y - B)); [apply eqm_of_eq; ring|].
  rewrite Ha, Hb, Hc, Hab. apply eqm_of_eq. ring.
Qed.

(** The sum of the two combinations of one position, [d] and [e] being
    the opened differences. *)
Lemma Mult_combine_sum ss party0 party1 x0 x1 y0 y1 a0 a1 b0 b1 c0 c1 :
  Small (bitsize_ ss) ->
  GetId party0 = 0 -> GetId party1 <> 0 ->
  eqm (bitsize_ ss) (c0 + c1) ((a0 + a1) * (b0 + b1)) ->
  let k := bitsize_ ss in
  let d := Mod (add32 (Mod (sub32 x0 a0) k) (Mod (sub32 x1 a1) k)) k in
  let e := Mod (add32 (Mod (sub32 y0 b0) k) (Mod (sub32 y1 b1) k)) k in
  eqm k (Additive.Mult_combine ss party0 (mkBT a0 b0 c0) d e
         + Additive.Mult_combine ss party1 (mkBT a1 b1 c1) d e)
        ((x0 + x1) * (y0 + y1)).
Proof.
  intros Hs H0 H1 Hc k d e. subst d e. unfold Additive.Mult_combine.
  apply Z.eqb_neq in H1. rewrite H0, H1.
  cbn [Z.eqb bt_a bt_b bt_c]. fold k.
  machine_eqm.
  transitivity (((y0 + y1) - (b0 + b1)) * a0 + ((x0 + x1) - (a0 + a1)) * b0 + c0
                + ((x0 + x1) - (a0 + a1)) * ((y0 + y1) - (b0 + b1))
                + (((y0 + y1) - (b0 + b1)) * a1 + ((x0 + x1) - (a0 + a1)) * b1 + c1));
    [apply eqm_of_eq; ring|].
  apply (Beaver_sum k (x0 + x1) (y0 + y1) (a0 + a1) (b0 + b1)
           ((a0 + a1) * (b0 + b1))); try reflexivity. exact Hc.
Qed.

(** X5. [Mult2] multiplies two pairs in one round: with two triples whose
    shares combine to valid triples, the first outputs of the two parties
    sum to the first product and the second outputs to the second
    product, modulo 2^k. *)
Theorem Mult2_correct ss x0 x1 y0 y1 a0 a1 b0 b1 c0 c1
    x0' x1' y0' y1' a0' a1' b0' b1' c0' c1' party0 party1 fuel :
  2 <= bitsize_ ss <= 32 ->
  eqm (bitsize_ ss) (c0 + c1) ((a0 + a1) * (b0 + b1)) ->
  eqm (bitsize_ ss) (c0' + c1') ((a0' + a1') * (b0' + b1')) ->
  GetId party0 = 0 -> GetId party1 = 1 -> (4 <= fuel)%nat ->
  exists z0 z0' z1 z1',
    session fuel
      (Additive.Mult2 ss party0 (mkBT a0 b0 c0) (mkBT a0' b0' c0') x0 y0 x0' y0')
      (Additive.Mult2 ss party1 (mkBT a1 b1 c1) (mkBT a1' b1' c1') x1 y1 x1' y1')
    = Done ((z0, z0'), (z1, z1')) /\
    eqm (bitsize_ ss) (z0 + z1) ((x0 + x1) * (y0 + y1)) /\
    eqm (bitsize_ ss) (z0' + z1') ((x0' + x1') * (y0' + y1')).
Proof.
  intros Hk Hc Hc' H0 H1 Hf.
  assert (Hs : Small (bitsize_ ss)) by (unfold Small; lia).
  assert (H1' : GetId party1 <> 0) by lia.
  pose proof (Mult_combine_sum ss party0 party1 x0 x1 y0 y1 a0 a1 b0 b1 c0 c1
                Hs H0 H1' Hc) as P.
  pose proof (Mult_combine_sum ss party0 party1 x0' x1' y0' y1' a0' a1' b0' b1'
                c0' c1' Hs H0 H1' Hc') as P'.
  unfold Additive.Mult_combine in P, P'. rewrite H0, H1 in P, P'.
  cbn [Z.eqb bt_a bt_b bt_c] in P, P'.
  unfold Additive.Mult2, Additive.Reconst_vec, SendRecv_vec.
  run_session H0 H1 fuel.
  all: do 4 eexists; (split; [reflexivity|]).
  all: split; [exact P | exact P'].
Qed.

Lemma Mult2_correct_witness :
  let ss := mkASS 8 in
  let party0 := mkParty 0 (mkServer 12345 3 4 0) (mkClient "127.0.0.1" 12345 0 0) true in
  let party1 := mkParty 1 (mkServer 12345 0 0 0) (mkClient "127.0.0.1" 12345 3 0) true in
  exists z0 z0' z1 z1',
    session 4
      (Additive.Mult2 ss party0 (mkBT 1 2 10) (mkBT 250 7 0) 2 1 100 50)
      (Additive.Mult2 ss party1 (mkBT 2 3 5) (mkBT 16 3 100) 5 5 100 150)
    = Done ((z0, z0'), (z1, z1')) /\
    eqm (bitsize_ ss) (z0 + z1) ((2 + 5) * (1 + 5)) /\
    eqm (bitsize_ ss) (z0' + z1') ((100 + 100) * (50 + 150)).
Proof.
  intros ss party0 party1.
  apply (Mult2_correct ss 2 5 1 5 1 2 2 3 10 5 100 100 50 150 250 16 7 3 0 100
           party0 party1 4); try reflexivity; simpl; lia.
Defined.

(** X6. [Mod] on bit sizes from 32 to 63, which the constructor accepts:
    the mask covers the whole cell, so a 32-bit value is left as it is
    and the engine computes modulo 2^32. *)
Theorem Mod_wide_bitsize bitsize value :
  32 <= bitsize < 64 -> is_u32 value ->
  AdditiveSecretSharing_new bitsize = Done (mkASS bitsize) /\
  Mod value bitsize = value.
Proof.
  intros Hk Hv. split.
  - unfold AdditiveSecretSharing_new.
    assert (H : (bitsize <=? 1) = false) by (apply Z.leb_gt; lia).
    rewrite H. reflexivity.
  - unfold Mod, u64, u32, is_u32 in *.
    rewrite Z.shiftl_1_l.
    assert (Hp : 2 ^ 32 <= 2 ^ bitsize < 2 ^ 64).
    { split; [apply Z.pow_le_mono_r | apply Z.pow_lt_mono_r]; lia. }
    rewrite (Z.mod_small (2 ^ bitsize)) by lia.
    rewrite (Z.mod_small (2 ^ bitsize - 1)) by lia.
    replace (2 ^ bitsize - 1) with (Z.ones bitsize)
      by (rewrite Z.ones_equiv; lia).
    rewrite Z.land_ones by lia.
    rewrite (Z.mod_small value (2 ^ bitsize)) by lia.
    apply Z.mod_small. lia.
Qed.

Lemma Mod_wide_bitsize_witness :
  AdditiveSecretSharing_new 40 = Done (mkASS 40) /\
  Mod 4000000000 40 = 4000000000.
Proof.
  apply (Mod_wide_bitsize 40 4000000000); unfold is_u32; lia.
Defined.

(** X7. Everything the scalar [Mult] produces is reduced to the low k
    bits, whatever it is given: at either party, for any operands, triple
    and words received, the two masked differences it sends and the share
    it returns lie in [0, 2^k). *)
Theorem Mult_canonical ss party bt x y pd pe :
  0 <= bitsize_ ss <= 32 ->
  exists z own_d own_e,
    run1 (Additive.Mult ss party bt x y) [pd; pe] [] = Done (z, [own_d; own_e]) /\
    0 <= z < 2 ^ bitsize_ ss /\
    0 <= own_d < 2 ^ bitsize_ ss /\
    0 <= own_e < 2 ^ bitsize_ ss.
Proof.
  intros Hk. rewrite run1_Mult.
  do 3 eexists. split; [reflexivity|].
  split; [|split]; try (apply Mod_range; exact Hk).
  unfold Additive.Mult_combine.
  destruct (GetId party =? 0); apply Mod_range; exact Hk.
Qed.

Lemma Mult_canonical_witness :
  let ss := mkASS 8 in
  let party := mkParty 0 (mkServer 12345 3 4 0) (mkClient "127.0.0.1" 12345 0 0) true in
  exists z own_d own_e,
    run1 (Additive.Mult ss party (mkBT 1000 2000 3000) 70000 80000) [900; 901] []
    = Done (z, [own_d; own_e]) /\
    0 <= z < 2 ^ bitsize_ ss /\
    0 <= own_d < 2 ^ bitsize_ ss /\
    0 <= own_e < 2 ^ bitsize_ ss.
Proof.
  intros ss party.
  apply (Mult_canonical ss party (mkBT 1000 2000 3000) 70000 80000 900 901).
  simpl. lia.
Defined.

(** ** Vector multiplication by both parties *)

(** X8. The vector [Mult] run by both parties multiplies element by
    element: with [z_vec] of n cells on both sides and operands of at
    least n elements, both calls return n cells, and wherever the triple
    shares at index i combine to a valid triple, the two output cells at i
    sum to the product of the combined operands, modulo 2^k. *)
Theorem Mult_vec_correct ss party0 party1 bt_vec0 bt_vec1
    x_vec0 x_vec1 y_vec0 y_vec1 z_vec0 z_vec1 fuel :
  2 <= bitsize_ ss <= 32 ->
  GetId party0 = 0 -> GetId party1 = 1 -> (4 <= fuel)%nat ->
  length z_vec1 = length z_vec0 ->
  (length z_vec0 <= length x_vec0)%nat -> (length z_vec0 <= length x_vec1)%nat ->
  (length z_vec0 <= length y_vec0)%nat -> (length z_vec0 <= length y_vec1)%nat ->
  (length z_vec0 <= length bt_vec0)%nat -> (length z_vec0 <= length bt_vec1)%nat ->
  exists r0 r1,
    session fuel (Additive.Mult_vec ss party0 bt_vec0 x_vec0 y_vec0 z_vec0)
                 (Additive.Mult_vec ss party1 bt_vec1 x_vec1 y_vec1 z_vec1)
    = Done (r0, r1) /\
    length r0 = length z_vec0 /\ length r1 = length z_vec0 /\
    forall i a b c d t0 t1,
      (i < length z_vec0)%nat ->
      x_vec0 !! i = Some a -> x_vec1 !! i = Some b ->
      y_vec0 !! i = Some c -> y_vec1 !! i = Some d ->
      bt_vec0 !! i = Some t0 -> bt_vec1 !! i = Some t1 ->
      eqm (bitsize_ ss) (bt_c t0 + bt_c t1)
          ((bt_a t0 + bt_a t1) * (bt_b t0 + bt_b t1)) ->
      exists p q,
        r0 !! i = Some p /\ r1 !! i = Some q /\
        eqm (bitsize_ ss) (p + q) ((a + b) * (c + d)).
Proof.
  intros Hk H0 H1 Hf Hz Hx0 Hx1 Hy0 Hy1 Hb0 Hb1.
  assert (Hs : Small (bitsize_ ss)) by (unfold Small; lia).
  assert (H1' : GetId party1 <> 0) by lia.
  set (num := length z_vec0) in *.
  unfold Additive.Mult_vec. rewrite Hz. fold num.
  set (zeros := replicate (num * 2) 0).
  assert (Hlz : length zeros = (2 * num)%nat)
    by (unfold zeros; rewrite length_replicate; lia).
  destruct (Mult_mask_loop_spec ss num 0 bt_vec0 x_vec0 y_vec0 zeros)
    as (own0 & Hown0 & Hl0 & Hmask0 & _); try lia.
  destruct (Mult_mask_loop_spec ss num 0 bt_vec1 x_vec1 y_vec1 zeros)
    as (own1 & Hown1 & Hl1 & Hmask1 & _); try lia.
  rewrite Hown0, Hown1.
  unfold Additive.Reconst_vec, SendRecv_vec. rewrite H0, H1.
  cbn [Z.eqb mbind Proto_bind bind SendVector RecvVector fst snd].
  destruct (Additive_Reconst_loop_spec ss (length zeros) 0 own0 own1 zeros)
    as (de & Hde & Hlde & Hsum & _); try lia.
  destruct (Mult_combine_loop_spec ss party0 num 0 bt_vec0 de z_vec0)
    as (r0 & Hr0 & Hlr0 & Hcomb0 & _); try (fold num; lia).
  destruct (Mult_combine_loop_spec ss party1 num 0 bt_vec1 de z_vec1)
    as (r1 & Hr1 & Hlr1 & Hcomb1 & _); try (fold num; lia).
  exists r0, r1. split.
  - apply (session_exchange own0 own1); try lia.
    + rewrite Hde. exact Hr0.
    + rewrite Hde. exact Hr1.
  - split; [exact Hlr0|]. split; [lia|].
    intros i a b c d t0 t1 Hi Ha Hb' Hc Hd Ht0 Ht1 Hvalid.
    destruct (Hmask0 i a c t0) as [Hd0 He0]; try assumption; try lia.
    destruct (Hmask1 i b d t1) as [Hd1 He1]; try assumption; try lia.
    pose proof (Hsum (2 * i)%nat _ _ ltac:(lia) Hd0 Hd1) as Hdd.
    pose proof (Hsum (2 * i + 1)%nat _ _ ltac:(lia) He0 He1) as Hee.
    eexists. eexists.
    split; [apply (Hcomb0 i _ _ t0 ltac:(lia) Hdd Hee Ht0)|].
    split; [apply (Hcomb1 i _ _ t1 ltac:(lia) Hdd Hee Ht1)|].
    destruct t0 as [a0 b0 c0], t1 as [a1 b1 c1].
    apply (Mult_combine_sum ss party0 party1 a b c d a0 a1 b0 b1 c0 c1);
      assumption.
Qed.

Lemma Mult_vec_correct_witness :
  let ss := mkASS 32 in
  let party0 := mkParty 0 (mkServer 12345 3 4 0) (mkClient "127.0.0.1" 12345 0 0) true in
  let party1 := mkParty 1 (mkServer 12345 0 0 0) (mkClient "127.0.0.1" 12345 3 0) true in
  let bt_vec0 := [mkBT 1 2 10; mkBT 7 7 7] in
  let bt_vec1 := [mkBT 2 3 5; mkBT 1 1 57] in
  let x_vec0 := [2; 1] in let x_vec1 := [5; 1] in
  let y_vec0 := [1; 10] in let y_vec1 := [5; 10] in
  let z_vec0 := [0; 0] in let z_vec1 := [0; 0] in
  exists r0 r1,
    session 4 (Additive.Mult_vec ss party0 bt_vec0 x_vec0 y_vec0 z_vec0)
              (Additive.Mult_vec ss party1 bt_vec1 x_vec1 y_vec1 z_vec1)
    = Done (r0, r1) /\
    length r0 = length z_vec0 /\ length r1 = length z_vec0 /\
    forall i a b c d t0 t1,
      (i < length z_vec0)%nat ->
      x_vec0 !! i = Some a -> x_vec1 !! i = Some b ->
      y_vec0 !! i = Some c -> y_vec1 !! i = Some d ->
      bt_vec0 !! i = Some t0 -> bt_vec1 !! i = Some t1 ->
      eqm (bitsize_ ss) (bt_c t0 + bt_c t1)
          ((bt_a t0 + bt_a t1) * (bt_b t0 + bt_b t1)) ->
      exists p q,
        r0 !! i = Some p /\ r1 !! i = Some q /\
        eqm (bitsize_ ss) (p + q) ((a + b) * (c + d)).
Proof.
  intros ss party0 party1 bt_vec0 bt_vec1 x_vec0 x_vec1 y_vec0 y_vec1
    z_vec0 z_vec1.
  apply (Mult_vec_correct ss party0 party1 bt_vec0 bt_vec1
           x_vec0 x_vec1 y_vec0 y_vec1 z_vec0 z_vec1 4);
    try reflexivity; simpl; lia.
Defined.

(** Scenario S4 of the protocol: x = [1,2,3,4], y = [10,20,30,40] with
    four triples; the output shares sum to [10,40,90,160]. *)
Example Mult_vec_S4 :
  session 4
    (Additive.Mult_vec (mkASS 32)
       (mkParty 0 (mkServer 0 0 0 0) (mkClient "" 0 0 0) true)
       [mkBT 1 2 10; mkBT 1 2 10; mkBT 1 2 10; mkBT 1 2 10]
       [1; 1; 1; 1] [4; 8; 12; 16] [0; 0; 0; 0])
    (Additive.Mult_vec (mkASS 32)
       (mkParty 1 (mkServer 0 0 0 0) (mkClient "" 0 0 0) true)
       [mkBT 2 3 5; mkBT 2 3 5; mkBT 2 3 5; mkBT 2 3 5]
       [0; 1; 2; 3] [6; 12; 18; 24] [0; 0; 0; 0])
  = Done ([1; 8; 35; 82], [9; 32; 55; 78]).
Proof. vm_compute. reflexivity. Qed.

(** ** Sharing and reconstructing vectors *)

Lemma Additive_Share_vec_lookup ss x_vec : forall g s0 s1 g',
  Additive.Share_vec ss x_vec g = ((s0, s1), g') ->
  length s0 = length x_vec /\ length s1 = length x_vec /\
  forall i x, x_vec !! i = Some x ->
    s0 !! i = Some (Mod (u32 (u64 (words g i))) (bitsize_ ss)) /\
    s1 !! i = Some (Mod (sub32 x (Mod (u32 (u64 (words g i))) (bitsize_ ss)))
                        (bitsize_ ss)).
Proof.
  induction x_vec as [|x rest IH]; intros g s0 s1 g' H.
  - injection H as <- <- <-. split; [reflexivity|]. split; [reflexivity|].
    intros i y Hy. discriminate.
  - cbn [Additive.Share_vec] in H. unfold Additive.Share in H.
    cbn [Rand64] in H.
    destruct (Additive.Share_vec ss rest _) as [[r0 r1] g2] eqn:E.
    injection H as <- <- <-.
    destruct (IH _ _ _ _ E) as (L0 & L1 & Hlook).
    split; [simpl; lia|]. split; [simpl; lia|].
    intros [|i] y Hy.
    + injection Hy as <-. split; reflexivity.
    + apply (Hlook i y Hy).
Qed.

(** X9. Sharing a vector and reconstructing it gives the vector back,
    reduced modulo 2^k: [Share] on a vector draws one word per element
    (the first share of element i is the i-th word drawn, reduced), and
    [Reconst] on the two share vectors returns, at both parties, element
    by element the input modulo 2^k, in one exchange. *)
Theorem Share_vec_Reconst_vec ss x_vec g s0 s1 party0 party1
    slot0 slot1 out0 out1 fuel :
  2 <= bitsize_ ss <= 32 ->
  fst (Additive.Share_vec ss x_vec g) = (s0, s1) ->
  GetId party0 = 0 -> GetId party1 = 1 -> (4 <= fuel)%nat ->
  length slot0 = length x_vec -> length slot1 = length x_vec ->
  length out0 = length x_vec -> length out1 = length x_vec ->
  (forall i, (i < length x_vec)%nat ->
     s0 !! i = Some (Mod (u32 (u64 (words g i))) (bitsize_ ss))) /\
  session fuel (Additive.Reconst_vec ss party0 s0 slot0 out0)
               (Additive.Reconst_vec ss party1 slot1 s1 out1)
  = Done (map (fun x => x mod 2 ^ bitsize_ ss) x_vec,
          map (fun x => x mod 2 ^ bitsize_ ss) x_vec).
Proof.
  intros Hk Hsh H0 H1 Hf Hs0 Hs1 Ho0 Ho1.
  assert (Hs : Small (bitsize_ ss)) by (unfold Small; lia).
  destruct (Additive.Share_vec ss x_vec g) as [[t0 t1] g'] eqn:E.
  simpl in Hsh. injection Hsh as -> ->.
  destruct (Additive_Share_vec_lookup ss x_vec g s0 s1 g' E) as (L0 & L1 & Hlook).
  split.
  { intros i Hi. destruct (lookup_lt_is_Some_2 x_vec i Hi) as [x Hx].
    apply (Hlook i x Hx). }
  assert (Hres : forall out, length out = length x_vec ->
            Additive.Reconst_loop ss (length out) 0 s0 s1 out
            = Ret (map (fun x => x mod 2 ^ bitsize_ ss) x_vec)).
  { intros out Ho.
    destruct (Additive_Reconst_loop_spec ss (length out) 0 s0 s1 out)
      as (r & Hr & Hlr & Hsum & _); try lia.
    rewrite Hr. f_equal. apply list_eq. intros i.
    rewrite list_lookup_fmap.
    destruct (x_vec !! i) as [x|] eqn:Hx.
    - destruct (Hlook i x Hx) as [Ha Hb].
      apply lookup_lt_Some in Hx.
      rewrite (Hsum i _ _ ltac:(lia) Ha Hb). simpl. f_equal.
      apply (eqm_small (bitsize_ ss)).
      + apply Mod_range. exact Hs.
      + apply Z.mod_pos_bound. apply pow2_le_32. exact Hs.
      + machine_eqm. unfold eqm. rewrite Zmod_mod. f_equal. ring.
    - apply lookup_ge_None in Hx. simpl.
      apply lookup_ge_None. lia. }
  unfold Additive.Reconst_vec, SendRecv_vec. rewrite H0, H1.
  cbn [Z.eqb mbind Proto_bind bind SendVector RecvVector fst snd].
  apply (session_exchange s0 s1); try lia.
  - apply Hres. exact Ho0.
  - apply Hres. exact Ho1.
Qed.

Lemma Share_vec_Reconst_vec_witness :
  let ss := mkASS 8 in
  let g := mkRng (fun n => 1000 + Z.of_nat n) (fun _ => false) in
  let x_vec := [200; 300; 5] in
  let party0 := mkParty 0 (mkServer 12345 3 4 0) (mkClient "127.0.0.1" 12345 0 0) true in
  let party1 := mkParty 1 (mkServer 12345 0 0 0) (mkClient "127.0.0.1" 12345 3 0) true in
  (forall i, (i < length x_vec)%nat ->
     [232; 233; 234] !! i = Some (Mod (u32 (u64 (words g i))) (bitsize_ ss))) /\
  session 4 (Additive.Reconst_vec ss party0 [232; 233; 234] [0; 0; 0] [0; 0; 0])
            (Additive.Reconst_vec ss party1 [0; 0; 0] [224; 67; 27] [0; 0; 0])
  = Done (map (fun x => x mod 2 ^ bitsize_ ss) x_vec,
          map (fun x => x mod 2 ^ bitsize_ ss) x_vec).
Proof.
  intros ss g x_vec party0 party1.
  apply (Share_vec_Reconst_vec ss x_vec g [232; 233; 234] [224; 67; 27]
           party0 party1 [0; 0; 0] [0; 0; 0] [0; 0; 0] [0; 0; 0] 4);
    try reflexivity; simpl; lia.
Defined.

(** ** Generation of triples *)

Lemma Additive_Generate_spec ss n : forall g bts g',
  Small (bitsize_ ss) ->
  Additive.GenerateBeaverTriples ss n g = (bts, g') ->
  length bts = n /\
  Forall (fun bt => canonical_triple (bitsize_ ss) bt /\
                    valid_triple (bitsize_ ss) bt) bts /\
  (forall i, words g' i = words g (2 * n + i)%nat) /\
  (forall i, coins g' i = coins g i).
Proof.
  intros g bts g' Hs. revert g bts g'.
  induction n as [|n IH]; intros g bts g' H.
  - injection H as <- <-. split; [reflexivity|]. split; [constructor|].
    split; reflexivity.
  - cbn [Additive.GenerateBeaverTriples Rand64] in H.
    destruct (Additive.GenerateBeaverTriples ss n _) as [rest g3] eqn:E.
    injection H as <- <-.
    destruct (IH _ _ _ E) as (Hl & Hall & Hw & Hc).
    split; [simpl; lia|]. split; [|split].
    + constructor; [|exact Hall]. split.
      * unfold canonical_triple. cbn [bt_a bt_b bt_c].
        split; [|split]; apply Mod_range; exact Hs.
      * unfold valid_triple. cbn [bt_a bt_b bt_c].
        rewrite (Mod_red _ (mul32 _ _) Hs), red_eqm.
        apply mul32_eqm. exact Hs.
    + intros i. rewrite Hw. cbn [words]. f_equal. lia.
    + intros i. rewrite Hc. reflexivity.
Qed.



Example GenerateBeaverTriples_sample :
  fst (Additive.GenerateBeaverTriples (mkASS 8) 2
         (mkRng (fun n => 1000 + Z.of_nat n) (fun _ => false)))
  = [mkBT 232 233 40; mkBT 234 235 206].
Proof. vm_compute. reflexivity. Qed.



(** What the two scalar [Mult] programs return when run together. *)
Lemma session_Mult ss party0 party1 bt0 bt1 x0 x1 y0 y1 fuel :
  GetId party0 = 0 -> GetId party1 = 1 -> (4 <= fuel)%nat ->
  let k := bitsize_ ss in
  let d := Mod (add32 (Mod (sub32 x0 (bt_a bt0)) k) (Mod (sub32 x1 (bt_a bt1)) k)) k in
  let e := Mod (add32 (Mod (sub32 y0 (bt_b bt0)) k) (Mod (sub32 y1 (bt_b bt1)) k)) k in
  session fuel (Additive.Mult ss party0 bt0 x0 y0)
               (Additive.Mult ss party1 bt1 x1 y1)
  = Done (Additive.Mult_combine ss party0 bt0 d e,
          Additive.Mult_combine ss party1 bt1 d e).
Proof.
  intros H0 H1 Hf k d e. subst k d e.
  unfold Additive.Mult, Additive.Mult_combine, Additive.Reconst_vec, SendRecv_vec.
  run_session H0 H1 fuel; reflexivity.
Qed.

(** X12. The dealer's pipeline composes with the multiplication: a triple
    made by [GenerateBeaverTriples] and split by [ShareBeaverTriples]
    gives, at every index, two triple shares with which [Mult] returns
    shares of the product of the combined operands. *)
Theorem generated_shares_multiply ss bt_num g bts g1 sh0 sh1 g2 i bt0 bt1
    x0 x1 y0 y1 party0 party1 fuel :
  2 <= bitsize_ ss <= 32 ->
  Additive.GenerateBeaverTriples ss bt_num g = (bts, g1) ->
  Additive.ShareBeaverTriples ss bts g1 = ((sh0, sh1), g2) ->
  sh0 !! i = Some bt0 -> sh1 !! i = Some bt1 ->
  GetId party0 = 0 -> GetId party1 = 1 -> (4 <= fuel)%nat ->
  exists z0 z1,
    session fuel (Additive.Mult ss party0 bt0 x0 y0)
                 (Additive.Mult ss party1 bt1 x1 y1)
    = Done (z0, z1) /\
    eqm (bitsize_ ss) (z0 + z1) ((x0 + x1) * (y0 + y1)).
Proof.
  intros Hk Hgen Hsh Hi0 Hi1 H0 H1 Hf.
  assert (Hs : Small (bitsize_ ss)) by (unfold Small; lia).
  destruct (Additive_Generate_spec ss bt_num g bts g1 Hs Hgen) as (_ & Hall & _).
  pose proof (Additive_ShareBeaverTriples_combine ss bts g1 Hs) as Hcomb.
  rewrite Hsh in Hcomb. cbn [fst snd] in Hcomb.
  destruct (Forall3_lookup_m _ _ _ _ i bt0 Hcomb Hi0)
    as (bt & bt1' & Hbt & Hi1' & Ha & Hb & Hc).
  assert (bt1' = bt1) by congruence. subst bt1'.
  rewrite Forall_lookup in Hall. destruct (Hall i bt Hbt) as [_ Hvalid].
  unfold valid_triple in Hvalid.
  rewrite session_Mult by assumption.
  eexists. eexists. split; [reflexivity|].
  destruct bt0 as [a0 b0 c0], bt1 as [a1 b1 c1]. cbn [bt_a bt_b bt_c] in *.
  apply (Mult_combine_sum ss party0 party1 x0 x1 y0 y1 a0 a1 b0 b1 c0 c1);
    try assumption; try lia.
  rewrite Hc, Hvalid, Ha, Hb. reflexivity.
Qed.

Lemma generated_shares_multiply_witness :
  let ss := mkASS 8 in
  let g := mkRng (fun n => 1000 + Z.of_nat n) (fun _ => false) in
  let party0 := mkParty 0 (mkServer 12345 3 4 0) (mkClient "127.0.0.1" 12345 0 0) true in
  let party1 := mkParty 1 (mkServer 12345 0 0 0) (mkClient "127.0.0.1" 12345 3 0) true in
  exists z0 z1,
    session 4 (Additive.Mult ss party0 (mkBT 234 235 236) 100 7)
              (Additive.Mult ss party1 (mkBT 254 254 60) 100 3)
    = Done (z0, z1) /\
    eqm (bitsize_ ss) (z0 + z1) ((100 + 100) * (7 + 3)).
Proof.
  intros ss g party0 party1.
  apply (generated_shares_multiply ss 1 g
           (fst (Additive.GenerateBeaverTriples ss 1 g))
           (snd (Additive.GenerateBeaverTriples ss 1 g))
           [mkBT 234 235 236] [mkBT 254 254 60]
           (snd (Additive.ShareBeaverTriples ss
                   (fst (Additive.GenerateBeaverTriples ss 1 g))
                   (snd (Additive.GenerateBeaverTriples ss 1 g))))
           0 _ _ 100 100 7 3 party0 party1 4);
    try reflexivity; simpl; lia.
Defined.

(** ** Life cycle of a party *)



(** A refused connection ends the process. *)
Example first_start_refused :
  StartCommunication
    (mkParty 1 (mkServer 12345 0 0 0) (mkClient "127.0.0.1" 12345 0 0) false)
    (mkWorld [] (fun h s => match s with
                            | sys_socket => 5
                            | sys_connect _ _ _ => -1
                            | _ => 0
                            end))
  = Faulted exit_failure.
Proof. reflexivity. Qed.

(** X14. [StartCommunication] is idempotent: whenever a call returns,
    calling it again on the state it left changes neither the party nor
    the world. *)
Theorem StartCommunication_idempotent party w party' w' :
  StartCommunication party w = Done (party', w') ->
  StartCommunication party' w' = Done (party', w').
Proof.
  unfold StartCommunication, ClearTotalBytesSent.
  destruct party as [id [sp sfd scfd sn] [ch cp cfd cn] st].
  cbn [is_started_ id_ p0_ p1_].
  destruct (id =? 0) eqn:Hid; cbn [is_started_ id_ p0_ p1_]; rewrite ?Hid.
  - destruct st.
    + intros [= <- <-]. cbn [is_started_ id_ p0_ p1_]. rewrite Hid.
      reflexivity.
    + unfold Server_Setup, Server_Start, call, Server_ClearTotalBytesSent.
      cbn [history kernel s_port server_fd s_client_fd s_total_bytes_sent fst snd].
      repeat match goal with
             | |- context [if ?c <? 0 then _ else _] =>
                 destruct (c <? 0); [discriminate|]
             end.
      intros [= <- <-]. cbn [is_started_ id_ p0_ p1_]. rewrite Hid.
      reflexivity.
  - destruct st.
    + intros [= <- <-]. cbn [is_started_ id_ p0_ p1_]. rewrite Hid.
      reflexivity.
    + unfold Client_Setup, Client_Start, call, Client_ClearTotalBytesSent.
      cbn [history kernel host_address c_port c_client_fd c_total_bytes_sent
           fst snd].
      repeat match goal with
             | |- context [if ?c <? 0 then _ else _] =>
                 destruct (c <? 0); [discriminate|]
             end.
      intros [= <- <-]. cbn [is_started_ id_ p0_ p1_]. rewrite Hid.
      reflexivity.
Qed.

Lemma StartCommunication_idempotent_witness :
  let party := mkParty 0 (mkServer 12345 0 0 8) (mkClient "127.0.0.1" 12345 0 0) false in
  let kern := fun (h : list syscall) s =>
                match s with sys_socket => 3 | sys_accept _ => 4 | _ => 0 end in
  let party' := mkParty 0 (mkServer 12345 3 4 0) (mkClient "127.0.0.1" 12345 0 0) true in
  let w' := mkWorld [sys_socket; sys_setsockopt 3; sys_bind 3 12345;
                     sys_listen 3 3; sys_accept 3] kern in
  StartCommunication party' w' = Done (party', w').
Proof.
  intros party kern party' w'.
  apply (StartCommunication_idempotent party (mkWorld [] kern) party' w').
  reflexivity.
Defined.

(** X15. [EndCommunication] closes the three descriptors of both
    endpoints, whatever the role of the party, and does not release the
    latch: a [StartCommunication] after it makes no call, so the party is
    not connected again. *)
Theorem no_restart_after_end party w :
  is_started_ party = true ->
  history (EndCommunication party w)
  = history w ++ [sys_close (server_fd (p0_ party));
                  sys_close (s_client_fd (p0_ party));
                  sys_close (c_client_fd (p1_ party))] /\
  exists party',
    StartCommunication party (EndCommunication party w)
    = Done (party', EndCommunication party w) /\
    is_started_ party' = true /\
    server_fd (p0_ party') = server_fd (p0_ party) /\
    s_client_fd (p0_ party') = s_client_fd (p0_ party) /\
    c_client_fd (p1_ party') = c_client_fd (p1_ party).
Proof.
  intros Hst. split.
  - unfold EndCommunication, Client_CloseSocket, Server_CloseSocket, call.
    cbn [history kernel fst snd]. rewrite <- !app_assoc. reflexivity.
  - unfold StartCommunication, ClearTotalBytesSent.
    destruct (id_ party =? 0); cbn [is_started_]; rewrite Hst;
      eexists; (split; [reflexivity|]); cbn; auto.
Qed.

Lemma no_restart_after_end_witness :
  let party := mkParty 1 (mkServer 12345 0 0 0) (mkClient "127.0.0.1" 12345 5 40) true in
  let w := mkWorld [sys_socket; sys_connect 5 "127.0.0.1" 12345] (fun _ _ => 0) in
  history (EndCommunication party w)
  = history w ++ [sys_close (server_fd (p0_ party));
                  sys_close (s_client_fd (p0_ party));
                  sys_close (c_client_fd (p1_ party))] /\
  exists party',
    StartCommunication party (EndCommunication party w)
    = Done (party', EndCommunication party w) /\
    is_started_ party' = true /\
    server_fd (p0_ party') = server_fd (p0_ party) /\
    s_client_fd (p0_ party') = s_client_fd (p0_ party) /\
    c_client_fd (p1_ party') = c_client_fd (p1_ party).
Proof.
  intros party w. apply (no_restart_after_end party w). reflexivity.
Defined.

(** ** Byte transport: what does work *)

Lemma RecvData_full stream buffer rets :
  buffer <> [] -> (length buffer <= length stream)%nat ->
  RecvData (Z.of_nat (length buffer) :: rets) stream buffer
  = Done (true, firstn (length buffer) stream, skipn (length buffer) stream).
Proof.
  intros Hne Hlen. unfold RecvData. cbn [RecvData_loop].
  assert (H0 : (0 <? Z.of_nat (length buffer)) = true).
  { apply Z.ltb_lt. destruct buffer; [contradiction | simpl; lia]. }
  rewrite H0.
  assert (H1 : (Z.of_nat (length buffer) <=? 0) = false).
  { apply Z.leb_gt. apply Z.ltb_lt. exact H0. }
  rewrite H1. unfold recv_call. rewrite Nat2Z.id.
  rewrite skipn_all, app_nil_r.
  assert (H2 : (0 + Z.of_nat (length buffer)
                <? Z.of_nat (length (firstn (length buffer) stream))) = false).
  { apply Z.ltb_ge. rewrite length_take. lia. }
  destruct rets; cbn [RecvData_loop]; rewrite H2; reflexivity.
Qed.

(** X16. When each call moves the whole buffer, the transport is exact:
    [SendData] appends exactly the bytes of the buffer to the wire after
    one call, [RecvData] on a stream that starts with them fills a buffer
    of the same length with exactly these bytes and leaves the rest of
    the stream; on an empty buffer both succeed without any call. *)
Theorem full_transfer data wire rest buffer rets rets' :
  length buffer = length data ->
  (data <> [] ->
   SendData (Z.of_nat (length data) :: rets) data wire
   = Done (true, wire ++ data) /\
   RecvData (Z.of_nat (length buffer) :: rets') (data ++ rest) buffer
   = Done (true, data, rest)) /\
  (data = [] ->
   SendData rets data wire = Done (true, wire) /\
   RecvData rets' rest buffer = Done (true, buffer, rest)).
Proof.
  intros Hlen. split.
  - intros Hne. split; [apply SendData_full; exact Hne|].
    rewrite RecvData_full.
    + rewrite Hlen, take_app_length, drop_app_length. reflexivity.
    + intros ->. destruct data; [contradiction | discriminate].
    + rewrite length_app. lia.
  - intros ->. destruct buffer; [|discriminate].
    split; [destruct rets | destruct rets']; reflexivity.
Qed.

Lemma full_transfer_witness :
  let data := [Byte.x01; Byte.x02; Byte.x03] in
  let buffer := [Byte.x00; Byte.x00; Byte.x00] in
  (data <> [] ->
   SendData (Z.of_nat (length data) :: []) data [Byte.xff]
   = Done (true, [Byte.xff] ++ data) /\
   RecvData (Z.of_nat (length buffer) :: []) (data ++ [Byte.x09]) buffer
   = Done (true, data, [Byte.x09])) /\
  (data = [] ->
   SendData [] data [Byte.xff] = Done (true, [Byte.xff]) /\
   RecvData [] [Byte.x09] buffer = Done (true, buffer, [Byte.x09])).
Proof.
  intros data buffer.
  apply (full_transfer data [Byte.xff] [Byte.x09] buffer [] []).
  reflexivity.
Defined.

(** X17. With positive returns [SendData] always ends with success once
    the counts add up to the length of the buffer (at most as many calls
    as the buffer has bytes), keeping what was on the wire before; it
    returns false only after a call has returned zero or less, and a
    first call that does so leaves the wire as it was. *)
Theorem SendData_outcome rets data wire :
  (Forall (fun r => 0 < r) rets -> (length data <= length rets)%nat ->
   exists sent, SendData rets data wire = Done (true, wire ++ sent)) /\
  (forall w, SendData rets data wire = Done (false, w) ->
             Exists (fun r => r <= 0) rets) /\
  (forall r rets', rets = r :: rets' -> r <= 0 -> data <> [] ->
                   SendData rets data wire = Done (false, wire)).
Proof.
  split; [|split].
  - intros Hpos Hlen. unfold SendData.
    assert (G : forall rets data total wire,
               Forall (fun r => 0 < r) rets ->
               Z.of_nat (length data) - total <= Z.of_nat (length rets) ->
               exists sent, SendData_loop rets data total wire
                            = Done (true, wire ++ sent)).
    { clear. induction rets as [|r rets IH]; intros data total wire Hpos Hlen;
        cbn [SendData_loop].
      - destruct (total <? Z.of_nat (length data)) eqn:Hlt.
        + apply Z.ltb_lt in Hlt. simpl in Hlen. lia.
        + exists []. rewrite app_nil_r. reflexivity.
      - destruct (total <? Z.of_nat (length data)) eqn:Hlt;
          [|exists []; rewrite app_nil_r; reflexivity].
        inversion Hpos as [|? ? Hr Hrest]; subst.
        assert (Hr' : (r <=? 0) = false) by (apply Z.leb_gt; exact Hr).
        rewrite Hr'.
        destruct (IH data (total + r) (send_call r data wire) Hrest)
          as [sent Hs]; [simpl length in Hlen; lia|].
        rewrite Hs. unfold send_call. rewrite <- app_assoc.
        eexists. reflexivity. }
    apply G; [exact Hpos | lia].
  - intros w H. apply (SendData_loop_false rets data 0 wire w H).
  - intros r rets' -> Hr Hne. unfold SendData. cbn [SendData_loop].
    assert (H0 : (0 <? Z.of_nat (length data)) = true).
    { apply Z.ltb_lt. destruct data; [contradiction | simpl; lia]. }
    assert (H1 : (r <=? 0) = true) by (apply Z.leb_le; exact Hr).
    rewrite H0, H1. reflexivity.
Qed.

Lemma SendData_outcome_witness :
  let rets := [1; 2; 1] in
  let data := [Byte.x01; Byte.x02; Byte.x03] in
  exists sent, SendData rets data [] = Done (true, [] ++ sent).
Proof.
  intros rets data.
  destruct (SendData_outcome rets data []) as (H & _ & _).
  apply H.
  - repeat constructor.
  - simpl. lia.
Defined.

Lemma byte_of_Z_to_N z : Z.of_N (Byte.to_N (byte_of_Z z)) = z mod 256.
Proof.
  unfold byte_of_Z.
  pose proof (Z.mod_pos_bound z 256 ltac:(lia)) as Hb.
  destruct (Byte.of_N (Z.to_N (z mod 256))) as [b|] eqn:E.
  - apply Byte.to_of_N in E. simpl. rewrite E. apply Z2N.id. lia.
  - apply Byte.of_N_None_iff in E. lia.
Qed.

Lemma u32_of_bytes_of_u32 value :
  is_u32 value -> u32_of_bytes (bytes_of_u32 value) = value.
Proof.
  unfold is_u32, u32_of_bytes, bytes_of_u32. intros Hv.
  cbn [fold_right]. rewrite !byte_of_Z_to_N.
  change (2 ^ 8) with 256. change (2 ^ 16) with 65536.
  change (2 ^ 24) with 16777216. change (2 ^ 32) with 4294967296 in Hv.
  Z.div_mod_to_equations. lia.
Qed.

(** X18. A value travels unchanged: [SendValue] whose send takes the four
    bytes at once puts exactly four bytes on the wire and adds 4 to the
    byte counter (modulo 2^32), and [RecvValue] whose recv returns four
    bytes reads the same value back, whatever the slot held before. *)
Theorem SendValue_RecvValue_roundtrip s value wire rest slot rets rets' :
  is_u32 value ->
  exists bytes,
    length bytes = 4%nat /\
    Server_SendValue s (4 :: rets) value wire
    = Done (mkServer (s_port s) (server_fd s) (s_client_fd s)
                     (add32 (s_total_bytes_sent s) 4),
            wire ++ bytes) /\
    RecvValue_bytes (4 :: rets') (bytes ++ rest) slot = Done (value, rest).
Proof.
  intros Hv. exists (bytes_of_u32 value).
  split; [reflexivity|]. split.
  - unfold Server_SendValue.
    pose proof (SendData_full (bytes_of_u32 value) wire rets) as H.
    change (Z.of_nat (length (bytes_of_u32 value))) with 4 in H.
    rewrite H; [reflexivity | discriminate].
  - unfold RecvValue_bytes.
    pose proof (RecvData_full (bytes_of_u32 value ++ rest) (bytes_of_u32 slot) rets')
      as H.
    change (Z.of_nat (length (bytes_of_u32 slot))) with 4 in H.
    rewrite H.
    + change (length (bytes_of_u32 slot)) with (length (bytes_of_u32 value)).
      rewrite take_app_length, drop_app_length, u32_of_bytes_of_u32 by exact Hv.
      reflexivity.
    + discriminate.
    + rewrite length_app. simpl. lia.
Qed.

Lemma SendValue_RecvValue_roundtrip_witness :
  exists bytes,
    length bytes = 4%nat /\
    Server_SendValue (mkServer 12345 3 4 4294967294) (4 :: []) 3735928559 []
    = Done (mkServer 12345 3 4 (add32 4294967294 4), [] ++ bytes) /\
    RecvValue_bytes (4 :: []) (bytes ++ []) 77 = Done (3735928559, []).
Proof.
  apply (SendValue_RecvValue_roundtrip (mkServer 12345 3 4 4294967294)
           3735928559 [] [] 77 [] []).
  unfold is_u32. lia.
Defined.

(** ** Signed reading of a share *)

Lemma land_pow2 x n :
  0 <= n -> Z.land x (2 ^ n) = if Z.testbit x n then 2 ^ n else 0.
Proof.
  intros Hn. apply Z.bits_inj'. intros m Hm.
  rewrite Z.land_spec, Z.pow2_bits_eqb by exact Hn.
  destruct (Z.eqb_spec n m) as [->|Hne].
  - destruct (Z.testbit x m).
    + rewrite Z.pow2_bits_true by exact Hm. reflexivity.
    + rewrite Z.testbit_0_l. reflexivity.
  - rewrite andb_false_r.
    destruct (Z.testbit x n).
    + rewrite Z.pow2_bits_false by (try lia; exact Hne). reflexivity.
    + rewrite Z.testbit_0_l. reflexivity.
Qed.

Lemma testbit_top x n :
  0 < n -> 0 <= x < 2 ^ n ->
  Z.testbit x (n - 1) = (2 ^ (n - 1) <=? x).
Proof.
  intros Hn Hx.
  assert (Hp : 2 ^ n = 2 * 2 ^ (n - 1)).
  { rewrite <- Z.pow_succ_r by lia. f_equal. lia. }
  assert (Hpos : 0 < 2 ^ (n - 1)) by (apply Z.pow_pos_nonneg; lia).
  rewrite Z.testbit_eqb by lia.
  destruct (Z.leb_spec (2 ^ (n - 1)) x) as [Hge|Hlt].
  - assert (Hq : x / 2 ^ (n - 1) = 1).
    { symmetry. apply (Z.div_unique x (2 ^ (n - 1)) 1 (x - 2 ^ (n - 1))); lia. }
    rewrite Hq. reflexivity.
  - rewrite Z.div_small by lia. reflexivity.
Qed.

(** X19. [To2Complement] reads a k-bit share as a signed number: for
    1 <= k <= 31 and x below 2^k the result is x when the top bit of x is
    clear and x - 2^k when it is set, it lies in [-2^(k-1), 2^(k-1)),
    and [Mod] of its 32-bit pattern gives x back. *)
Theorem To2Complement_signed x bitsize :
  1 <= bitsize <= 31 -> 0 <= x < 2 ^ bitsize ->
  exists v,
    To2Complement x bitsize = Some v /\
    v = (if x <? 2 ^ (bitsize - 1) then x else x - 2 ^ bitsize) /\
    - 2 ^ (bitsize - 1) <= v < 2 ^ (bitsize - 1) /\
    Mod (u32 v) bitsize = x.
Proof.
  intros Hk Hx.
  assert (Hp : 2 ^ bitsize = 2 * 2 ^ (bitsize - 1)).
  { rewrite <- Z.pow_succ_r by lia. f_equal. lia. }
  assert (Hpos : 0 < 2 ^ (bitsize - 1)) by (apply Z.pow_pos_nonneg; lia).
  assert (Hle : 2 ^ bitsize <= 2 ^ 31) by (apply Z.pow_le_mono_r; lia).
  assert (H31 : 2 ^ 32 = 2 * 2 ^ 31) by reflexivity.
  assert (Hs : Small bitsize) by (unfold Small; lia).
  unfold To2Complement, shl32, sub32.
  rewrite (u32_small (bitsize - 1)) by (unfold is_u32; lia).
  assert (E1 : (0 <=? bitsize - 1) && (bitsize - 1 <? 32) = true).
  { apply andb_true_iff. split; [apply Z.leb_le | apply Z.ltb_lt]; lia. }
  assert (E2 : (0 <=? bitsize) && (bitsize <? 32) = true).
  { apply andb_true_iff. split; [apply Z.leb_le | apply Z.ltb_lt]; lia. }
  rewrite E1, E2, !Z.shiftl_1_l.
  rewrite (u32_small (2 ^ (bitsize - 1))) by (unfold is_u32; lia).
  rewrite (u32_small (2 ^ bitsize)) by (unfold is_u32; lia).
  rewrite land_pow2 by lia.
  rewrite testbit_top by lia.
  destruct (Z.leb_spec (2 ^ (bitsize - 1)) x) as [Hge|Hlt].
  - assert (Hnz : (2 ^ (bitsize - 1) =? 0) = false) by (apply Z.eqb_neq; lia).
    rewrite Hnz.
    assert (Hlt' : (x <? 2 ^ (bitsize - 1)) = false) by (apply Z.ltb_ge; lia).
    rewrite Hlt'.
    assert (Hw : u32 (x - 2 ^ bitsize) = x - 2 ^ bitsize + 2 ^ 32).
    { unfold u32. symmetry.
      apply (Z.mod_unique_pos _ _ (-1)); lia. }
    assert (Hv : int32 (u32 (x - 2 ^ bitsize)) = x - 2 ^ bitsize).
    { rewrite Hw. unfold int32.
      replace (x - 2 ^ bitsize + 2 ^ 32 + 2 ^ 31)
        with (x - 2 ^ bitsize + 2 ^ 31 + 1 * 2 ^ 32) by ring.
      rewrite Z_mod_plus_full, Z.mod_small by lia. ring. }
    exists (x - 2 ^ bitsize). rewrite Hv.
    split; [reflexivity|]. split; [reflexivity|]. split; [lia|].
    apply (eqm_small bitsize); [apply Mod_range; exact Hs | exact Hx |].
    machine_eqm. unfold eqm.
    replace (x - 2 ^ bitsize) with (x + (-1) * 2 ^ bitsize) by ring.
    apply Z_mod_plus_full.
  - rewrite Z.eqb_refl.
    assert (Hlt' : (x <? 2 ^ (bitsize - 1)) = true) by (apply Z.ltb_lt; lia).
    rewrite Hlt'.
    assert (Hv : int32 x = x).
    { unfold int32. rewrite Z.mod_small by lia. ring. }
    exists x. rewrite Hv.
    split; [reflexivity|]. split; [reflexivity|]. split; [lia|].
    rewrite u32_small by (unfold is_u32; lia).
    rewrite Mod_spec by exact Hs. apply Z.mod_small. exact Hx.
Qed.

Lemma To2Complement_signed_witness :
  exists v,
    To2Complement 200 8 = Some v /\
    v = (if 200 <? 2 ^ (8 - 1) then 200 else 200 - 2 ^ 8) /\
    - 2 ^ (8 - 1) <= v < 2 ^ (8 - 1) /\
    Mod (u32 v) 8 = 200.
Proof.
  apply (To2Complement_signed 200 8); lia.
Defined.

Example To2Complement_200 : To2Complement 200 8 = Some (-56).
Proof. reflexivity. Qed.

(** At 32 bits the second shift is by the full width: a share with the
    top bit clear is returned as it is, one with the top bit set has no
    defined result. *)
Example To2Complement_32 :
  To2Complement 5 32 = Some 5 /\ To2Complement 4294967295 32 = None.
Proof. split; reflexivity. Qed.

(** ** Triple files: counts, missing files, export of shares *)

Lemma read_triples_firstn n : forall bt_vec bts,
  Forall is_u32_triple bt_vec ->
  read_triples n (triple_lines bt_vec) bts = Done (bts ++ firstn n bt_vec).
Proof.
  induction n as [|n IH]; intros bt_vec bts Hall.
  - simpl. rewrite app_nil_r. reflexivity.
  - destruct bt_vec as [|bt rest].
    + pose proof (IH [] bts Hall) as H. cbn [triple_lines] in H.
      cbn [read_triples triple_lines getline firstn].
      rewrite H. destruct n; reflexivity.
    + inversion Hall as [|? ? Hbt Hrest]; subst.
      cbn [read_triples triple_lines firstn].
      rewrite getline_triple_line, (SplitStringToUint32_line bt Hbt).
      cbn [lookup list_lookup].
      rewrite (IH rest _ Hrest), <- app_assoc.
      destruct bt. reflexivity.
Qed.

(** X20. [ReadBeaverTriplesFromFile] trusts the count on the first line
    only as far as there are lines: from a file with count n followed by
    the lines of some triples it returns the first n of them, and all of
    them, without any error, when n exceeds their number; when the file
    does not exist it leaves the vector it was given unchanged. *)
Theorem ReadBeaverTriplesFromFile_count fs file_path n bt_vec old :
  0 <= n < 2 ^ 32 ->
  Forall is_u32_triple bt_vec ->
  (files fs !! file_path
     = Some (to_string n +:+ String newline (triple_lines bt_vec)) ->
   ReadBeaverTriplesFromFile fs file_path old
   = Done (firstn (Z.to_nat n) bt_vec)) /\
  (files fs !! file_path = None ->
   ReadBeaverTriplesFromFile fs file_path old = Done old).
Proof.
  intros Hn Hall. unfold ReadBeaverTriplesFromFile, OpenFile_in. split.
  - intros ->. rewrite ReadNumCountFromFile_count by exact Hn.
    apply (read_triples_firstn (Z.to_nat n) bt_vec [] Hall).
  - intros ->. reflexivity.
Qed.

Lemma ReadBeaverTriplesFromFile_count_witness :
  let bt_vec := [mkBT 3 5 15; mkBT 1 1 1] in
  let fs := mkFS {[ "bt.dat" := to_string 5 +:+ String newline (triple_lines bt_vec) ]} ∅ in
  (files fs !! "bt.dat"
     = Some (to_string 5 +:+ String newline (triple_lines bt_vec)) ->
   ReadBeaverTriplesFromFile fs "bt.dat" []
   = Done (firstn (Z.to_nat 5) bt_vec)) /\
  (files fs !! "bt.dat" = None ->
   ReadBeaverTriplesFromFile fs "bt.dat" [] = Done []).
Proof.
  intros bt_vec fs.
  apply (ReadBeaverTriplesFromFile_count fs "bt.dat" 5 bt_vec []).
  - lia.
  - repeat constructor; simpl; lia.
Defined.

Lemma read_written fs file_path bt_vec old :
  Forall is_u32_triple bt_vec ->
  Z.of_nat (length bt_vec) < 2 ^ 32 ->
  files fs !! file_path
    = Some (to_string (Z.of_nat (length bt_vec)) +:+ String newline
              (triple_lines bt_vec)) ->
  ReadBeaverTriplesFromFile fs file_path old = Done bt_vec.
Proof.
  intros Hall Hlen Hfile.
  unfold ReadBeaverTriplesFromFile, OpenFile_in. rewrite Hfile.
  rewrite ReadNumCountFromFile_count by lia.
  rewrite Nat2Z.id, (read_triples_firstn _ bt_vec [] Hall), firstn_all.
  reflexivity.
Qed.

(** X21. [ExportBTShare] followed by [LoadBTShare]: with two different
    writable paths each party's file gives back its own vector of triple
    shares and no other file is touched; with the same path twice the
    second vector overwrites the first, and loading gives the second. *)
Theorem ExportBTShare_LoadBTShare fs file_path_p0 file_path_p1 sh0 sh1 old :
  file_path_p0 ∉ locked fs -> file_path_p1 ∉ locked fs ->
  Forall is_u32_triple sh0 -> Forall is_u32_triple sh1 ->
  Z.of_nat (length sh0) < 2 ^ 32 -> Z.of_nat (length sh1) < 2 ^ 32 ->
  exists fs',
    ExportBTShare fs file_path_p0 file_path_p1 (sh0, sh1) = Done fs' /\
    LoadBTShare fs' file_path_p1 old = Done sh1 /\
    (file_path_p0 <> file_path_p1 -> LoadBTShare fs' file_path_p0 old = Done sh0) /\
    (file_path_p0 = file_path_p1 -> LoadBTShare fs' file_path_p0 old = Done sh1) /\
    (forall q, q <> file_path_p0 -> q <> file_path_p1 ->
               files fs' !! q = files fs !! q).
Proof.
  intros Hf0 Hf1 Ha0 Ha1 Hl0 Hl1.
  unfold ExportBTShare, LoadBTShare. cbn [fst snd].
  rewrite WriteBeaverTriplesToFile_content by exact Hf0.
  rewrite WriteBeaverTriplesToFile_content by exact Hf1.
  eexists. split; [reflexivity|].
  assert (H1 : ReadBeaverTriplesFromFile
                 (close_out (close_out fs file_path_p0
                    (to_string (Z.of_nat (length sh0)) +:+ String newline
                       (triple_lines sh0))) file_path_p1
                    (to_string (Z.of_nat (length sh1)) +:+ String newline
                       (triple_lines sh1))) file_path_p1 old = Done sh1).
  { apply read_written; try assumption.
    unfold close_out. cbn [files]. apply lookup_insert_eq. }
  split; [exact H1|]. split; [|split].
  - intros Hne. apply read_written; try assumption.
    unfold close_out. cbn [files].
    rewrite lookup_insert_ne by congruence. apply lookup_insert_eq.
  - intros ->. exact H1.
  - intros q Hq0 Hq1. unfold close_out. cbn [files].
    rewrite !lookup_insert_ne by congruence. reflexivity.
Qed.

Lemma ExportBTShare_LoadBTShare_witness :
  let fs := mkFS ∅ ∅ in
  let sh0 := [mkBT 232 233 234] in
  let sh1 := [mkBT 27 28 37] in
  exists fs',
    ExportBTShare fs "bt_0.dat" "bt_1.dat" (sh0, sh1) = Done fs' /\
    LoadBTShare fs' "bt_1.dat" [] = Done sh1 /\
    ("bt_0.dat" <> "bt_1.dat" -> LoadBTShare fs' "bt_0.dat" [] = Done sh0) /\
    ("bt_0.dat" = "bt_1.dat" -> LoadBTShare fs' "bt_0.dat" [] = Done sh1) /\
    (forall q, q <> "bt_0.dat" -> q <> "bt_1.dat" ->
               files fs' !! q = files fs !! q).
Proof.
  intros fs sh0 sh1.
  apply (ExportBTShare_LoadBTShare fs "bt_0.dat" "bt_1.dat" sh0 sh1 []);
    try apply not_elem_of_empty;
    try (repeat constructor; simpl; lia);
    simpl; lia.
Defined.

(** A locked path ends the process at the write. *)
Example ExportBT_locked :
  ExportBT (mkFS ∅ {[ "bt.dat" ]}) "bt.dat" [mkBT 1 2 3] = Faulted exit_failure.
Proof. vm_compute. reflexivity. Qed.

(** ** Boolean engine on vectors *)

Lemma Boolean_Reconst_loop_spec n : forall i x_0 x_1 out,
  (i + n <= length x_0)%nat -> (i + n <= length x_1)%nat ->
  (i + n <= length out)%nat ->
  exists out',
    Boolean.Reconst_loop n i x_0 x_1 out = Ret out' /\
    length out' = length out /\
    (forall j a b, (i <= j < i + n)%nat ->
       x_0 !! j = Some a -> x_1 !! j = Some b ->
       out' !! j = Some (Z.lxor a b)) /\
    (forall j, (j < i)%nat -> out' !! j = out !! j).
Proof.
  induction n as [|n IH]; intros i x_0 x_1 out H0 H1 Ho; simpl.
  - exists out. split; [reflexivity|]. split; [reflexivity|].
    split; [intros; lia | reflexivity].
  - destruct (lookup_lt_is_Some_2 x_0 i) as [a Ha]; [lia|].
    destruct (lookup_lt_is_Some_2 x_1 i) as [b Hb]; [lia|].
    rewrite Ha, Hb.
    destruct (IH (S i) x_0 x_1 (<[i:=Z.lxor a b]> out))
      as (out' & Hrun & Hlen & Hnew & Hold);
      rewrite ?length_insert; try lia.
    exists out'. split; [exact Hrun|].
    rewrite length_insert in Hlen. split; [exact Hlen|]. split.
    + intros j a' b' Hj Ha' Hb'.
      destruct (decide (j = i)) as [->|Hne].
      * rewrite Hold by lia. rewrite list_lookup_insert_eq by lia.
        congruence.
      * apply Hnew; [lia | assumption | assumption].
    + intros j Hj. rewrite Hold by lia.
      apply list_lookup_insert_ne. lia.
Qed.

Lemma And_mask_loop_spec n : forall i bt_vec x_vec y_vec de,
  (i + n <= length x_vec)%nat -> (i + n <= length y_vec)%nat ->
  (i + n <= length bt_vec)%nat -> (2 * (i + n) <= length de)%nat ->
  exists own,
    Boolean.And_mask_loop n i bt_vec x_vec y_vec de = Ret own /\
    length own = length de /\
    (forall j x y bt, (i <= j < i + n)%nat ->
       x_vec !! j = Some x -> y_vec !! j = Some y -> bt_vec !! j = Some bt ->
       own !! (2 * j)%nat = Some (Z.lxor x (bt_a bt)) /\
       own !! (2 * j + 1)%nat = Some (Z.lxor y (bt_b bt))) /\
    (forall m, (m < 2 * i)%nat -> own !! m = de !! m).
Proof.
  induction n as [|n IH]; intros i bt_vec x_vec y_vec de Hx Hy Hb Hd; simpl.
  - exists de. split; [reflexivity|]. split; [reflexivity|].
    split; [intros; lia | reflexivity].
  - destruct (lookup_lt_is_Some_2 x_vec i) as [x Hxi]; [lia|].
    destruct (lookup_lt_is_Some_2 y_vec i) as [y Hyi]; [lia|].
    destruct (lookup_lt_is_Some_2 bt_vec i) as [bt Hbi]; [lia|].
    rewrite Hxi, Hyi, Hbi.
    set (de' := <[(i + (i + 0) + 1)%nat:=Z.lxor y (bt_b bt)]>
                 (<[(i + (i + 0))%nat:=Z.lxor x (bt_a bt)]> de)).
    assert (Hlen' : length de' = length de)
      by (unfold de'; rewrite !length_insert; reflexivity).
    destruct (IH (S i) bt_vec x_vec y_vec de')
      as (own & Hrun & Hlen & Hnew & Hold); try lia.
    exists own. split; [exact Hrun|]. split; [lia|]. split.
    + intros j x' y' bt' Hj Hx' Hy' Hb'.
      destruct (decide (j = i)) as [->|Hne].
      * rewrite !Hold by lia. unfold de'.
        replace x' with x by congruence. replace y' with y by congruence.
        replace bt' with bt by congruence.
        split.
        -- rewrite list_lookup_insert_ne by lia.
           replace (2 * i)%nat with (i + (i + 0))%nat by lia.
           apply list_lookup_insert_eq. lia.
        -- replace (2 * i + 1)%nat with (i + (i + 0) + 1)%nat by lia.
           apply list_lookup_insert_eq. rewrite length_insert. lia.
      * apply Hnew; [lia | assumption | assumption | assumption].
    + intros m Hm. rewrite Hold by lia. unfold de'.
      rewrite !list_lookup_insert_ne by lia. reflexivity.
Qed.

Lemma And_combine_loop_spec party n : forall i bt_vec de z,
  (i + n <= length bt_vec)%nat -> (2 * (i + n) <= length de)%nat ->
  (i + n <= length z)%nat ->
  exists z',
    Boolean.And_combine_loop party n i bt_vec de z = Ret z' /\
    length z' = length z /\
    (forall j d e bt, (i <= j < i + n)%nat ->
       de !! (2 * j)%nat = Some d -> de !! (2 * j + 1)%nat = Some e ->
       bt_vec !! j = Some bt ->
       z' !! j = Some (Boolean.And_combine_bits party bt d e)) /\
    (forall j, (j < i)%nat -> z' !! j = z !! j).
Proof.
  induction n as [|n IH]; intros i bt_vec de z Hb Hd Hz.
  - exists z. split; [reflexivity|]. split; [reflexivity|].
    split; [intros; lia | reflexivity].
  - cbn [Boolean.And_combine_loop].
    destruct (lookup_lt_is_Some_2 de (2 * i)%nat) as [d Hdi]; [lia|].
    destruct (lookup_lt_is_Some_2 de (2 * i + 1)%nat) as [e Hei]; [lia|].
    destruct (lookup_lt_is_Some_2 bt_vec i) as [bt Hbi]; [lia|].
    rewrite Hdi, Hei, Hbi.
    destruct (IH (S i) bt_vec de (<[i:=Boolean.And_combine_bits party bt d e]> z))
      as (z' & Hrun & Hlen & Hnew & Hold);
      rewrite ?length_insert; try lia.
    exists z'. split; [exact Hrun|].
    rewrite length_insert in Hlen. split; [exact Hlen|]. split.
    + intros j d' e' bt' Hj Hd' He' Hb'.
      destruct (decide (j = i)) as [->|Hne].
      * rewrite Hold by lia. rewrite list_lookup_insert_eq by lia.
        congruence.
      * apply Hnew; [lia | assumption | assumption | assumption].
    + intros j Hj. rewrite Hold by lia.
      apply list_lookup_insert_ne. lia.
Qed.

(** The two vector [And] programs run together: what each cell holds. *)
Lemma session_And_vec party0 party1 bt_vec0 bt_vec1
    x_vec0 x_vec1 y_vec0 y_vec1 z_vec0 z_vec1 fuel :
  GetId party0 = 0 -> GetId party1 = 1 -> (4 <= fuel)%nat ->
  length z_vec1 = length z_vec0 ->
  (length z_vec0 <= length x_vec0)%nat -> (length z_vec0 <= length x_vec1)%nat ->
  (length z_vec0 <= length y_vec0)%nat -> (length z_vec0 <= length y_vec1)%nat ->
  (length z_vec0 <= length bt_vec0)%nat -> (length z_vec0 <= length bt_vec1)%nat ->
  exists r0 r1,
    session fuel (Boolean.And_vec party0 bt_vec0 x_vec0 y_vec0 z_vec0)
                 (Boolean.And_vec party1 bt_vec1 x_vec1 y_vec1 z_vec1)
    = Done (r0, r1) /\
    (forall A (g : list Z -> Proto A) a,
       g r0 = Ret a ->
       session fuel (r ← Boolean.And_vec party0 bt_vec0 x_vec0 y_vec0 z_vec0; g r)
                    (Boolean.And_vec party1 bt_vec1 x_vec1 y_vec1 z_vec1)
       = Done (a, r1)) /\
    length r0 = length z_vec0 /\ length r1 = length z_vec0 /\
    forall i a b c d t0 t1,
      (i < length z_vec0)%nat ->
      x_vec0 !! i = Some a -> x_vec1 !! i = Some b ->
      y_vec0 !! i = Some c -> y_vec1 !! i = Some d ->
      bt_vec0 !! i = Some t0 -> bt_vec1 !! i = Some t1 ->
      let de := Z.lxor (Z.lxor a (bt_a t0)) (Z.lxor b (bt_a t1)) in
      let ee := Z.lxor (Z.lxor c (bt_b t0)) (Z.lxor d (bt_b t1)) in
      r0 !! i = Some (Boolean.And_combine_bits party0 t0 de ee) /\
      r1 !! i = Some (Boolean.And_combine_bits party1 t1 de ee).
Proof.
  intros H0 H1 Hf Hz Hx0 Hx1 Hy0 Hy1 Hb0 Hb1.
  set (num := length z_vec0) in *.
  unfold Boolean.And_vec. rewrite Hz. fold num.
  set (zeros := replicate (num * 2) 0).
  assert (Hlz : length zeros = (2 * num)%nat)
    by (unfold zeros; rewrite length_replicate; lia).
  destruct (And_mask_loop_spec num 0 bt_vec0 x_vec0 y_vec0 zeros)
    as (own0 & Hown0 & Hl0 & Hmask0 & _); try lia.
  destruct (And_mask_loop_spec num 0 bt_vec1 x_vec1 y_vec1 zeros)
    as (own1 & Hown1 & Hl1 & Hmask1 & _); try lia.
  rewrite Hown0, Hown1.
  unfold Boolean.Reconst_vec, SendRecv_vec. rewrite H0, H1.
  cbn [Z.eqb mbind Proto_bind bind SendVector RecvVector fst snd].
  destruct (Boolean_Reconst_loop_spec (length zeros) 0 own0 own1 zeros)
    as (de & Hde & Hlde & Hsum & _); try lia.
  destruct (And_combine_loop_spec party0 num 0 bt_vec0 de z_vec0)
    as (r0 & Hr0 & Hlr0 & Hcomb0 & _); try (fold num; lia).
  destruct (And_combine_loop_spec party1 num 0 bt_vec1 de z_vec1)
    as (r1 & Hr1 & Hlr1 & Hcomb1 & _); try (fold num; lia).
  exists r0, r1. split; [|split].
  - apply (session_exchange own0 own1); try lia.
    + rewrite Hde. exact Hr0.
    + rewrite Hde. exact Hr1.
  - intros A g a Hg.
    apply (session_exchange own0 own1); try lia.
    + rewrite Hde. cbn [bind]. rewrite Hr0. exact Hg.
    + rewrite Hde. exact Hr1.
  - split; [exact Hlr0|]. split; [lia|].
    intros i a b c d t0 t1 Hi Ha Hb' Hc Hd Ht0 Ht1. cbv zeta.
    destruct (Hmask0 i a c t0) as [Hd0 He0]; try assumption; try lia.
    destruct (Hmask1 i b d t1) as [Hd1 He1]; try assumption; try lia.
    pose proof (Hsum (2 * i)%nat _ _ ltac:(lia) Hd0 Hd1) as Hdd.
    pose proof (Hsum (2 * i + 1)%nat _ _ ltac:(lia) He0 He1) as Hee.
    split.
    + apply (Hcomb0 i _ _ t0 ltac:(lia) Hdd Hee Ht0).
    + apply (Hcomb1 i _ _ t1 ltac:(lia) Hdd Hee Ht1).
Qed.

(** X22. The vector [And] run by both parties is correct element by
    element and bit by bit: with [zb_vec] of n cells on both sides and
    operands of at least n elements, both calls return n cells, and
    wherever the c shares of the triples at index i combine to the
    conjunction of the combined a and b, the output cells at i combine
    by exclusive or to the conjunction of the combined operands. *)
Theorem And_vec_correct party0 party1 bt_vec0 bt_vec1
    x_vec0 x_vec1 y_vec0 y_vec1 z_vec0 z_vec1 fuel :
  GetId party0 = 0 -> GetId party1 = 1 -> (4 <= fuel)%nat ->
  length z_vec1 = length z_vec0 ->
  (length z_vec0 <= length x_vec0)%nat -> (length z_vec0 <= length x_vec1)%nat ->
  (length z_vec0 <= length y_vec0)%nat -> (length z_vec0 <= length y_vec1)%nat ->
  (length z_vec0 <= length bt_vec0)%nat -> (length z_vec0 <= length bt_vec1)%nat ->
  exists r0 r1,
    session fuel (Boolean.And_vec party0 bt_vec0 x_vec0 y_vec0 z_vec0)
                 (Boolean.And_vec party1 bt_vec1 x_vec1 y_vec1 z_vec1)
    = Done (r0, r1) /\
    length r0 = length z_vec0 /\ length r1 = length z_vec0 /\
    forall i a b c d t0 t1,
      (i < length z_vec0)%nat ->
      x_vec0 !! i = Some a -> x_vec1 !! i = Some b ->
      y_vec0 !! i = Some c -> y_vec1 !! i = Some d ->
      bt_vec0 !! i = Some t0 -> bt_vec1 !! i = Some t1 ->
      Z.lxor (bt_c t0) (bt_c t1)
        = Z.land (Z.lxor (bt_a t0) (bt_a t1)) (Z.lxor (bt_b t0) (bt_b t1)) ->
      exists p q,
        r0 !! i = Some p /\ r1 !! i = Some q /\
        Z.lxor p q = Z.land (Z.lxor a b) (Z.lxor c d).
Proof.
  intros H0 H1 Hf Hz Hx0 Hx1 Hy0 Hy1 Hb0 Hb1.
  destruct (session_And_vec party0 party1 bt_vec0 bt_vec1 x_vec0 x_vec1
              y_vec0 y_vec1 z_vec0 z_vec1 fuel)
    as (r0 & r1 & Hrun & _ & Hl0 & Hl1 & Hcell); try assumption.
  exists r0, r1. split; [exact Hrun|]. split; [exact Hl0|]. split; [exact Hl1|].
  intros i a b c d t0 t1 Hi Ha Hb Hc Hd Ht0 Ht1 Hvalid.
  destruct (Hcell i a b c d t0 t1 Hi Ha Hb Hc Hd Ht0 Ht1) as [Hp Hq].
  eexists. eexists. split; [exact Hp|]. split; [exact Hq|].
  unfold Boolean.And_combine_bits. rewrite H0, H1. cbn [Z.eqb].
  destruct t0 as [a0 b0 c0], t1 as [a1 b1 c1]. cbn [bt_a bt_b bt_c] in *.
  apply lxor_solve in Hvalid. subst c1. bitwise.
Qed.

Lemma And_vec_correct_witness :
  let party0 := mkParty 0 (mkServer 12345 3 4 0) (mkClient "127.0.0.1" 12345 0 0) true in
  let party1 := mkParty 1 (mkServer 12345 0 0 0) (mkClient "127.0.0.1" 12345 3 0) true in
  let bt_vec0 := [mkBT 0 1 1; mkBT 5 9 12] in
  let bt_vec1 := [mkBT 1 0 0; mkBT 3 12 8] in
  let x_vec0 := [0; 10] in let x_vec1 := [1; 12] in
  let y_vec0 := [1; 6] in let y_vec1 := [1; 5] in
  let z_vec0 := [0; 0] in let z_vec1 := [0; 0] in
  exists r0 r1,
    session 4 (Boolean.And_vec party0 bt_vec0 x_vec0 y_vec0 z_vec0)
              (Boolean.And_vec party1 bt_vec1 x_vec1 y_vec1 z_vec1)
    = Done (r0, r1) /\
    length r0 = length z_vec0 /\ length r1 = length z_vec0 /\
    forall i a b c d t0 t1,
      (i < length z_vec0)%nat ->
      x_vec0 !! i = Some a -> x_vec1 !! i = Some b ->
      y_vec0 !! i = Some c -> y_vec1 !! i = Some d ->
      bt_vec0 !! i = Some t0 -> bt_vec1 !! i = Some t1 ->
      Z.lxor (bt_c t0) (bt_c t1)
        = Z.land (Z.lxor (bt_a t0) (bt_a t1)) (Z.lxor (bt_b t0) (bt_b t1)) ->
      exists p q,
        r0 !! i = Some p /\ r1 !! i = Some q /\
        Z.lxor p q = Z.land (Z.lxor a b) (Z.lxor c d).
Proof.
  intros party0 party1 bt_vec0 bt_vec1 x_vec0 x_vec1 y_vec0 y_vec1
    z_vec0 z_vec1.
  apply (And_vec_correct party0 party1 bt_vec0 bt_vec1
           x_vec0 x_vec1 y_vec0 y_vec1 z_vec0 z_vec1 4);
    try reflexivity; simpl; lia.
Defined.

Lemma Or_flip_inputs_spec n : forall i x_vec y_vec nx ny,
  (i + n <= length x_vec)%nat -> (i + n <= length y_vec)%nat ->
  (i + n <= length nx)%nat -> (i + n <= length ny)%nat ->
  exists nx' ny',
    Boolean.Or_flip_inputs n i x_vec y_vec nx ny = Ret (nx', ny') /\
    length nx' = length nx /\ length ny' = length ny /\
    (forall j a c, (i <= j < i + n)%nat ->
       x_vec !! j = Some a -> y_vec !! j = Some c ->
       nx' !! j = Some (Z.lxor a 1) /\ ny' !! j = Some (Z.lxor c 1)) /\
    (forall j, (j < i)%nat -> nx' !! j = nx !! j /\ ny' !! j = ny !! j).
Proof.
  induction n as [|n IH]; intros i x_vec y_vec nx ny Hx Hy Hnx Hny; simpl.
  - exists nx, ny. split; [reflexivity|]. split; [reflexivity|].
    split; [reflexivity|]. split; [intros; lia | auto].
  - destruct (lookup_lt_is_Some_2 x_vec i) as [a Ha]; [lia|].
    destruct (lookup_lt_is_Some_2 y_vec i) as [c Hc]; [lia|].
    rewrite Ha, Hc.
    destruct (IH (S i) x_vec y_vec (<[i:=Z.lxor a 1]> nx) (<[i:=Z.lxor c 1]> ny))
      as (nx' & ny' & Hrun & Hlx & Hly & Hnew & Hold);
      rewrite ?length_insert; try lia.
    exists nx', ny'. split; [exact Hrun|].
    rewrite length_insert in Hlx, Hly.
    split; [exact Hlx|]. split; [exact Hly|]. split.
    + intros j a' c' Hj Ha' Hc'.
      destruct (decide (j = i)) as [->|Hne].
      * destruct (Hold i ltac:(lia)) as [E1 E2]. rewrite E1, E2.
        rewrite !list_lookup_insert_eq by lia.
        split; congruence.
      * apply Hnew; [lia | assumption | assumption].
    + intros j Hj. destruct (Hold j ltac:(lia)) as [E1 E2]. rewrite E1, E2.
      rewrite !list_lookup_insert_ne by lia. auto.
Qed.

Lemma Or_flip_output_spec n : forall i z,
  (i + n <= length z)%nat ->
  exists z',
    Boolean.Or_flip_output n i z = Ret z' /\
    length z' = length z /\
    (forall j v, (i <= j < i + n)%nat -> z !! j = Some v ->
       z' !! j = Some (Z.lxor v 1)) /\
    (forall j, (j < i)%nat -> z' !! j = z !! j).
Proof.
  induction n as [|n IH]; intros i z Hz; simpl.
  - exists z. split; [reflexivity|]. split; [reflexivity|].
    split; [intros; lia | reflexivity].
  - destruct (lookup_lt_is_Some_2 z i) as [v Hv]; [lia|].
    rewrite Hv.
    destruct (IH (S i) (<[i:=Z.lxor v 1]> z))
      as (z' & Hrun & Hlen & Hnew & Hold);
      rewrite ?length_insert; try lia.
    exists z'. split; [exact Hrun|].
    rewrite length_insert in Hlen. split; [exact Hlen|]. split.
    + intros j v' Hj Hv'.
      destruct (decide (j = i)) as [->|Hne].
      * rewrite Hold by lia. rewrite list_lookup_insert_eq by lia.
        congruence.
      * apply Hnew; [lia|].
        rewrite list_lookup_insert_ne by lia. exact Hv'.
    + intros j Hj. rewrite Hold by lia.
      apply list_lookup_insert_ne. lia.
Qed.

(** X23. The vector [Or] run by both parties is correct element by
    element: party 0 flips its input shares and its output shares, party
    1 runs the plain vector [And], and wherever the combined operands at
    index i are bits and the triple shares at i combine to a valid
    triple, the output cells at i combine by exclusive or to the
    disjunction of the operands. *)
Theorem Or_vec_correct party0 party1 bt_vec0 bt_vec1
    x_vec0 x_vec1 y_vec0 y_vec1 z_vec0 z_vec1 fuel :
  GetId party0 = 0 -> GetId party1 = 1 -> (4 <= fuel)%nat ->
  length z_vec1 = length z_vec0 ->
  (length z_vec0 <= length x_vec0)%nat -> (length z_vec0 <= length x_vec1)%nat ->
  (length z_vec0 <= length y_vec0)%nat -> (length z_vec0 <= length y_vec1)%nat ->
  (length z_vec0 <= length bt_vec0)%nat -> (length z_vec0 <= length bt_vec1)%nat ->
  exists r0 r1,
    session fuel (Boolean.Or_vec party0 bt_vec0 x_vec0 y_vec0 z_vec0)
                 (Boolean.Or_vec party1 bt_vec1 x_vec1 y_vec1 z_vec1)
    = Done (r0, r1) /\
    length r0 = length z_vec0 /\ length r1 = length z_vec0 /\
    forall i a b c d t0 t1,
      (i < length z_vec0)%nat ->
      x_vec0 !! i = Some a -> x_vec1 !! i = Some b ->
      y_vec0 !! i = Some c -> y_vec1 !! i = Some d ->
      bt_vec0 !! i = Some t0 -> bt_vec1 !! i = Some t1 ->
      is_bit (Z.lxor a b) -> is_bit (Z.lxor c d) ->
      Z.lxor (bt_c t0) (bt_c t1)
        = Z.land (Z.lxor (bt_a t0) (bt_a t1)) (Z.lxor (bt_b t0) (bt_b t1)) ->
      exists p q,
        r0 !! i = Some p /\ r1 !! i = Some q /\
        Z.lxor p q = Z.lor (Z.lxor a b) (Z.lxor c d).
Proof.
  intros H0 H1 Hf Hz Hx0 Hx1 Hy0 Hy1 Hb0 Hb1.
  set (num := length z_vec0) in *.
  unfold Boolean.Or_vec. rewrite H0, H1. cbn [Z.eqb]. fold num.
  destruct (Or_flip_inputs_spec num 0 x_vec0 y_vec0 (replicate num 0) (replicate num 0))
    as (nx & ny & Hflip & Hlnx & Hlny & Hin & _);
    rewrite ?length_replicate; try lia.
  rewrite length_replicate in Hlnx, Hlny.
  rewrite Hflip. cbn [mbind Proto_bind bind fst snd].
  destruct (session_And_vec party0 party1 bt_vec0 bt_vec1 nx x_vec1
              ny y_vec1 z_vec0 z_vec1 fuel)
    as (r0 & r1 & _ & Hrun & Hl0 & Hl1 & Hcell); try assumption;
    try (fold num; lia).
  destruct (Or_flip_output_spec num 0 r0) as (r0' & Hout & Hl0' & Hflipped & _);
    [fold num in Hl0; lia|].
  exists r0', r1. split.
  - apply (Hrun _ (fun zb => Boolean.Or_flip_output num 0 zb) r0' Hout).
  - split; [fold num in Hl0; lia|]. split; [exact Hl1|].
    intros i a b c d t0 t1 Hi Ha Hb Hc Hd Ht0 Ht1 Hbx Hby Hvalid.
    destruct (Hin i a c ltac:(lia) Ha Hc) as [Hna Hnc].
    destruct (Hcell i _ b _ d t0 t1 Hi Hna Hb Hnc Hd Ht0 Ht1) as [Hp Hq].
    eexists. eexists.
    split; [apply (Hflipped i _ ltac:(lia) Hp)|]. split; [exact Hq|].
    unfold Boolean.And_combine_bits. rewrite H0, H1. cbn [Z.eqb].
    destruct t0 as [a0 b0 c0], t1 as [a1 b1 c1]. cbn [bt_a bt_b bt_c] in *.
    apply lxor_solve in Hvalid. subst c1.
    destruct Hbx as [Hbx|Hbx], Hby as [Hby|Hby]; rewrite Hbx, Hby;
      apply lxor_solve in Hbx, Hby; subst b d; bitwise.
Qed.

Lemma Or_vec_correct_witness :
  let party0 := mkParty 0 (mkServer 12345 3 4 0) (mkClient "127.0.0.1" 12345 0 0) true in
  let party1 := mkParty 1 (mkServer 12345 0 0 0) (mkClient "127.0.0.1" 12345 3 0) true in
  let bt_vec0 := [mkBT 0 1 1; mkBT 1 1 0] in
  let bt_vec1 := [mkBT 1 0 0; mkBT 0 1 0] in
  let x_vec0 := [0; 1] in let x_vec1 := [1; 1] in
  let y_vec0 := [1; 0] in let y_vec1 := [1; 0] in
  let z_vec0 := [0; 0] in let z_vec1 := [0; 0] in
  exists r0 r1,
    session 4 (Boolean.Or_vec party0 bt_vec0 x_vec0 y_vec0 z_vec0)
              (Boolean.Or_vec party1 bt_vec1 x_vec1 y_vec1 z_vec1)
    = Done (r0, r1) /\
    length r0 = length z_vec0 /\ length r1 = length z_vec0 /\
    forall i a b c d t0 t1,
      (i < length z_vec0)%nat ->
      x_vec0 !! i = Some a -> x_vec1 !! i = Some b ->
      y_vec0 !! i = Some c -> y_vec1 !! i = Some d ->
      bt_vec0 !! i = Some t0 -> bt_vec1 !! i = Some t1 ->
      is_bit (Z.lxor a b) -> is_bit (Z.lxor c d) ->
      Z.lxor (bt_c t0) (bt_c t1)
        = Z.land (Z.lxor (bt_a t0) (bt_a t1)) (Z.lxor (bt_b t0) (bt_b t1)) ->
      exists p q,
        r0 !! i = Some p /\ r1 !! i = Some q /\
        Z.lxor p q = Z.lor (Z.lxor a b) (Z.lxor c d).
Proof.
  intros party0 party1 bt_vec0 bt_vec1 x_vec0 x_vec1 y_vec0 y_vec1
    z_vec0 z_vec1.
  apply (Or_vec_correct party0 party1 bt_vec0 bt_vec1
           x_vec0 x_vec1 y_vec0 y_vec1 z_vec0 z_vec1 4);
    try reflexivity; simpl; lia.
Defined.

(** The vector [Or] on the four combinations of two bits: the output
    shares combine to 0, 1, 1, 1. *)
Example Or_vec_truth_table :
  session 4
    (Boolean.Or_vec (mkParty 0 (mkServer 0 0 0 0) (mkClient "" 0 0 0) true)
       [mkBT 0 1 1; mkBT 1 1 0; mkBT 0 0 1; mkBT 1 0 1]
       [1; 0; 1; 0] [0; 1; 1; 1] [0; 0; 0; 0])
    (Boolean.Or_vec (mkParty 1 (mkServer 0 0 0 0) (mkClient "" 0 0 0) true)
       [mkBT 1 0 0; mkBT 0 1 0; mkBT 1 1 0; mkBT 0 1 0]
       [1; 0; 0; 1] [0; 0; 1; 0] [0; 0; 0; 0])
  = Done ([0; 1; 0; 0], [0; 0; 1; 1]).
Proof. vm_compute. reflexivity. Qed.
